(** * A shallow embedding of the DPLL solver script

    The program reads a CNF formula from a text file ([parse_file]) and
    decides it with a recursive search ([DPLL]) that interleaves unit
    propagation ([remove_unit_clauses]), pure-literal elimination
    ([pure_literal]) and branching.

    Data, as the script has it:
    - a literal is a Python [int], here [Z];
    - a clause is a [tuple] of literals, here [list Z] (order and
      repetitions are part of the value);
    - the formula and the symbol domain are Python [set]s, here [gset];
    - the model is a [dict] from variable to [bool], here [gmap Z bool].

    Effects, as the script has them:
    - [remove_unit_clauses] mutates the clause set and the dictionary it
      receives; [pure_literal] mutates the dictionary; [DPLL] passes the
      very same objects to its recursive calls.  The embedding threads the
      state of the caller's clause set and of the dictionary through every
      call, so that what a failed branch leaves behind is visible to the
      next one;
    - the order in which a [set] is iterated is not fixed by the language.
      It is a parameter of the embedding ([IterOrder]): every statement about
      the search is made for an arbitrary order. *)

From Stdlib Require Import ZArith List Ascii String Lia Bool.
From stdpp Require Import base option list gmap fin_sets fin_maps.

Local Open Scope Z_scope.

(** ** Data model *)

(** The exceptions the script can raise. *)
Inductive exn : Type :=
  | ValueError_invalid_clause   (* raise ValueError("Invalid clause") *)
  | ValueError_int              (* int() on a token that is no integer *)
  | ValueError_header           (* the header does not unpack into two ints *)
  | KeyError.                   (* polarity[lit] on an absent key *)

(** Iteration order of Python sets: any enumeration of the elements. *)
Class IterOrder : Type := {
  iter_clauses : gset (list Z) → list (list Z);
  iter_clauses_perm : ∀ X, iter_clauses X ≡ₚ elements X;
  iter_symbols : gset Z → list Z;
  iter_symbols_perm : ∀ X, iter_symbols X ≡ₚ elements X
}.

(** One concrete order, used to run the embedding. *)
Definition elements_order : IterOrder :=
  {| iter_clauses := elements;
     iter_clauses_perm := λ X, reflexivity (elements X);
     iter_symbols := elements;
     iter_symbols_perm := λ X, reflexivity (elements X) |}.

(** What a call returns, raises, or fails to reach for want of fuel. *)
Inductive outcome (A : Type) : Type :=
  | Ret (a : A)
  | Raise (e : exn)
  | OutOfFuel.
Arguments Ret {A} a.
Arguments Raise {A} e.
Arguments OutOfFuel {A}.

(** ** The loader: [parse_file]

    The file is given as the sequence of its lines; characters are code
    points below 256.  [int] is the conversion of the language (an optional
    sign, decimal digits, single underscores between digits). *)

(** [str.isspace] on code points below 256. *)
Definition is_space (c : ascii) : bool :=
  let n := N_of_ascii c in
  ((9 <=? n) && (n <=? 13) || (28 <=? n) && (n <=? 32)
   || (n =? 133) || (n =? 160))%N.

Definition is_zero_char (c : ascii) : bool := (N_of_ascii c =? 48)%N.

Fixpoint drop_while {A} (p : A → bool) (l : list A) : list A :=
  match l with
  | [] => []
  | x :: l' => if p x then drop_while p l' else l
  end.

(** [s.strip()], [s.rstrip("0")], [s.endswith("0")]. *)
Definition strip (s : list ascii) : list ascii :=
  rev (drop_while is_space (rev (drop_while is_space s))).

Definition rstrip_zeros (s : list ascii) : list ascii :=
  rev (drop_while is_zero_char (rev s)).

Definition endswith_zero (s : list ascii) : bool :=
  match rev s with
  | c :: _ => is_zero_char c
  | [] => false
  end.

(** [s.split()]: the maximal runs of characters that are not white space.
    [tok] is the run being read, in reverse. *)
Fixpoint split_loop (s : list ascii) (tok : list ascii) : list (list ascii) :=
  match s with
  | [] => match tok with [] => [] | _ => [rev tok] end
  | c :: s' =>
      if is_space c
      then match tok with
           | [] => split_loop s' []
           | _ => rev tok :: split_loop s' []
           end
      else split_loop s' (c :: tok)
  end.

Definition split (s : list ascii) : list (list ascii) := split_loop s [].

Definition digit_of (c : ascii) : option Z :=
  let n := Z.of_N (N_of_ascii c) in
  if (48 <=? n) && (n <=? 57) then Some (n - 48) else None.

Fixpoint int_digits (acc : Z) (after_digit : bool) (s : list ascii)
    : option Z :=
  match s with
  | [] => if after_digit then Some acc else None
  | c :: s' =>
      match digit_of c with
      | Some d => int_digits (10 * acc + d) true s'
      | None =>
          if (N_of_ascii c =? 95)%N && after_digit   (* "_" *)
          then int_digits acc false s'
          else None
      end
  end.

(** [int(token)]; [None] stands for the [ValueError] it raises. *)
Definition py_int (token : list ascii) : option Z :=
  match token with
  | c :: s' =>
      if (N_of_ascii c =? 43)%N then int_digits 0 false s'             (* "+" *)
      else if (N_of_ascii c =? 45)%N then Z.opp <$> int_digits 0 false s' (* "-" *)
      else int_digits 0 false token
  | [] => None
  end.

(** [tuple(map(int, tokens))]. *)
Fixpoint ints (tokens : list (list ascii)) : option (list Z) :=
  match tokens with
  | [] => Some []
  | t :: tokens' =>
      match py_int t with
      | None => None
      | Some z => match ints tokens' with
                  | None => None
                  | Some zs => Some (z :: zs)
                  end
      end
  end.

(** A generator that has run to its end: the clauses it yields, in order,
    closed by the end of the iteration or by an exception. *)
Inductive gen : Type :=
  | GStop
  | GRaise (e : exn)
  | GYield (current_clause : list Z) (next : gen).

(** The nested generator [read_clause(file, nb_lit)]; [buffer] is the local
    of that name, empty at the start and after each [yield]. *)
Fixpoint read_clause (file : list string) (nb_lit : Z) (buffer : list ascii)
    : gen :=
  match file with
  | [] => GStop
  | line :: file' =>
      let stripped := strip (list_ascii_of_string line) in
      match stripped with
      | [] => read_clause file' nb_lit buffer
      | _ =>
          let buffer := buffer ++ stripped in
          if endswith_zero stripped then
            match ints (split (rstrip_zeros buffer)) with
            | None => GRaise ValueError_int
            | Some current_clause =>
                if existsb (λ literal, nb_lit <? Z.abs literal) current_clause
                then GRaise ValueError_invalid_clause
                else GYield current_clause (read_clause file' nb_lit [])
            end
          else read_clause file' nb_lit (buffer ++ [" "%char])
      end
  end.

(** The loop [for clause in read_clause(f, nb_lit)] with its [break]. *)
Fixpoint collect (clauses : gen) (nb_clauses : Z) (cnf : gset (list Z))
    : outcome (gset (list Z)) :=
  match clauses with
  | GStop => Ret cnf
  | GRaise e => Raise e
  | GYield clause next =>
      let cnf := cnf ∪ {[clause]} in
      if nb_clauses <=? Z.of_nat (size cnf) then Ret cnf
      else collect next nb_clauses cnf
  end.

(** [nb_clauses, nb_lit = map(int, f.readline().strip().split())]. *)
Definition read_header (file : list string) : outcome (Z * Z) :=
  let line := match file with [] => ""%string | l :: _ => l end in
  match split (strip (list_ascii_of_string line)) with
  | [t1; t2] =>
      match py_int t1, py_int t2 with
      | Some nb_clauses, Some nb_lit => Ret (nb_clauses, nb_lit)
      | _, _ => Raise ValueError_int
      end
  | t1 :: t2 :: t3 :: _ =>
      match py_int t1, py_int t2, py_int t3 with
      | Some _, Some _, Some _ => Raise ValueError_header
      | _, _, _ => Raise ValueError_int
      end
  | [t1] =>
      match py_int t1 with
      | Some _ => Raise ValueError_header
      | None => Raise ValueError_int
      end
  | [] => Raise ValueError_header
  end.

(** What the loader prints. *)
Inductive message : Type :=
  | Reading (nb_clauses nb_lit : Z)
  | Warning (found : nat) (nb_clauses : Z).

Record loaded : Type := Loaded {
  loaded_cnf : gset (list Z);
  loaded_nb_clauses : Z;
  loaded_nb_lit : Z;
  printed : list message
}.

Definition parse_file (file : list string) : outcome loaded :=
  match read_header file with
  | Ret (nb_clauses, nb_lit) =>
      match collect (read_clause (tail file) nb_lit []) nb_clauses ∅ with
      | Ret cnf =>
          Ret (Loaded cnf nb_clauses nb_lit
                 (Reading nb_clauses nb_lit ::
                  if Z.of_nat (size cnf) <? nb_clauses
                  then [Warning (size cnf) nb_clauses] else []))
      | Raise e => Raise e
      | OutOfFuel => OutOfFuel
      end
  | Raise e => Raise e
  | OutOfFuel => OutOfFuel
  end.

(** ** Unit propagation: [remove_unit_clauses] *)

(** The inner loop [for literal in clause], which either breaks or reaches
    its [else] branch with the current [unit_literal]. *)
Inductive scan_result : Type :=
  | Broke
  | Finished (unit_literal : option Z).

Fixpoint scan_clause (model : gmap Z bool) (clause : list Z)
    (unit_literal : option Z) : scan_result :=
  match clause with
  | [] => Finished unit_literal
  | literal :: rest =>
      match model !! Z.abs literal with
      | None =>
          match unit_literal with
          | Some _ => Broke
          | None => scan_clause model rest (Some literal)
          end
      | Some _ => scan_clause model rest unit_literal
      end
  end.

(** The outer loop over [clauses.copy()]; [todo] is what is left of the
    iteration, [clauses] and [model] are the objects being mutated. *)
Fixpoint remove_unit_loop (todo : list (list Z)) (clauses : gset (list Z))
    (model : gmap Z bool) : bool * gset (list Z) * gmap Z bool :=
  match todo with
  | [] => (false, clauses, model)
  | clause :: todo' =>
      match scan_clause model clause None with
      | Finished (Some unit_literal) =>
          (true, clauses ∖ {[clause]},
           <[Z.abs unit_literal := 0 <? unit_literal]> model)
      | _ => remove_unit_loop todo' clauses model
      end
  end.

Definition remove_unit_clauses `{IterOrder} (clauses : gset (list Z))
    (model : gmap Z bool) : bool * gset (list Z) * gmap Z bool :=
  remove_unit_loop (iter_clauses clauses) clauses model.

(** ** Pure-literal elimination: [pure_literal] *)

(** The three locals of the scan. *)
Record pl_state : Type := PlState {
  polarity : gmap Z bool;
  new_symb : gset Z;
  pure_literals : gset Z
}.

(** Python truth value of [symbols]: [None] and the empty set are false. *)
Definition established (symbols : option (gset Z)) : bool :=
  match symbols with
  | None => false
  | Some X => bool_decide (X ≠ ∅)
  end.

(** Initial value of [new_symb] and of [pure_literals]:
    [set() if not symbols else symbols.copy()]. *)
Definition pl_init (symbols : option (gset Z)) : gset Z :=
  if established symbols then default ∅ symbols else ∅.

(** Body of [for lit in clause]. *)
Definition pl_lit (symbols : option (gset Z)) (st : pl_state) (lit : Z)
    : pl_state :=
  let abs_lit := Z.abs lit in
  match polarity st !! abs_lit with
  | None =>
      let pol := <[abs_lit := 0 <? lit]> (polarity st) in
      if established symbols
      then PlState pol (new_symb st) (pure_literals st)
      else PlState pol ({[abs_lit]} ∪ new_symb st)
                       ({[abs_lit]} ∪ pure_literals st)
  | Some p =>
      if bool_decide (p ≠ (0 <? lit))
      then PlState (polarity st) (new_symb st) (pure_literals st ∖ {[abs_lit]})
      else st
  end.

Definition pl_clause (symbols : option (gset Z)) (st : pl_state)
    (clause : list Z) : pl_state :=
  fold_left (pl_lit symbols) clause st.

Definition pl_scan (symbols : option (gset Z)) (todo : list (list Z))
    (st : pl_state) : pl_state :=
  fold_left (pl_clause symbols) todo st.

(** [for lit in pure_literals: model[lit] = polarity[lit]]. *)
Fixpoint assign_pure (todo : list Z) (pol : gmap Z bool)
    (model : gmap Z bool) : outcome (gmap Z bool) :=
  match todo with
  | [] => Ret model
  | lit :: todo' =>
      match pol !! lit with
      | None => Raise KeyError
      | Some b => assign_pure todo' pol (<[lit := b]> model)
      end
  end.

(** [any(abs(lit) in pure_literals for lit in clause)]. *)
Definition has_pure (pure : gset Z) (clause : list Z) : bool :=
  existsb (λ lit, bool_decide (Z.abs lit ∈ pure)) clause.

(** The result is [None] for the pair [(None, None)], and otherwise the new
    clause set with the new symbol domain; the last component is the state
    of the dictionary when the function returns. *)
Definition pure_literal `{IterOrder} (cnf : gset (list Z))
    (symbols : option (gset Z)) (model : gmap Z bool)
    : outcome (option (gset (list Z) * gset Z) * gmap Z bool) :=
  if bool_decide (cnf = ∅) then Ret (None, model)
  else
    let st := pl_scan symbols (iter_clauses cnf)
                (PlState ∅ (pl_init symbols) (pl_init symbols)) in
    let new_symb' := new_symb st ∖ pure_literals st in
    match assign_pure (iter_symbols (pure_literals st)) (polarity st) model with
    | Ret model' =>
        Ret (Some (filter (λ clause, has_pure (pure_literals st) clause = false) cnf,
                   new_symb'),
             model')
    | Raise e => Raise e
    | OutOfFuel => OutOfFuel
    end.

(** ** The search: [DPLL] *)

(** What [DPLL] returns: a pair, or [None] when control falls off the end of
    the function. *)
Inductive pyvalue : Type :=
  | PyNone
  | PyTuple (verdict : bool) (m : option (gmap Z bool)).

(** Python truth value of a result: any pair is true, [None] is false. *)
Definition truthy (result : pyvalue) : bool :=
  match result with
  | PyNone => false
  | PyTuple _ _ => true
  end.

(** [litteral in model and model[litteral] or
     -litteral in model and not model[-litteral]]. *)
Definition lit_holds (model : gmap Z bool) (litteral : Z) : bool :=
  match model !! litteral with Some b => b | None => false end
  || match model !! (- litteral) with Some b => negb b | None => false end.

Definition all_clauses_hold `{IterOrder} (clauses : gset (list Z))
    (model : gmap Z bool) : bool :=
  forallb (λ c, existsb (lit_holds model) c) (iter_clauses clauses).

(** A call yields the returned value together with the final state of the
    two mutable objects it was given: the caller's clause set and the
    dictionary. *)
Fixpoint DPLL `{IterOrder} (fuel : nat) (clauses : gset (list Z))
    (symbols : option (gset Z)) (model : gmap Z bool)
    : outcome (pyvalue * gset (list Z) * gmap Z bool) :=
  match fuel with
  | O => OutOfFuel
  | S fuel =>
    if bool_decide (clauses = ∅) then Ret (PyTuple true None, clauses, model)
    else if bool_decide (model ≠ ∅) && all_clauses_hold clauses model
    then Ret (PyTuple true (Some model), clauses, model)
    else if match symbols with
            | Some ss => bool_decide (size model = size ss)
            | None => false
            end
    then Ret (PyTuple false (Some model), clauses, model)
    else
      match remove_unit_clauses clauses model with
      | (true, clauses1, model1) => DPLL fuel clauses1 symbols model1
      | (false, _, _) =>
        match pure_literal clauses symbols model with
        | Raise e => Raise e
        | OutOfFuel => OutOfFuel
        | Ret (None, model') => Ret (PyTuple true (Some model'), clauses, model')
        | Ret (Some (clauses', symbols'), model') =>
          if bool_decide (clauses' = ∅)
          then Ret (PyTuple true (Some model'), clauses, model')
          else
            match iter_symbols (symbols' ∖ dom model') with
            | [] => Ret (PyNone, clauses, model')
            | s :: _ =>
              match DPLL fuel clauses' (Some symbols') (<[s := true]> model') with
              | Ret (result, clauses1, model1) =>
                if truthy result
                then Ret (PyTuple true (Some model1), clauses, model1)
                else
                  match DPLL fuel clauses1 (Some symbols')
                             (<[s := false]> model1) with
                  | Ret (result2, _, model2) => Ret (result2, clauses, model2)
                  | Raise e => Raise e
                  | OutOfFuel => OutOfFuel
                  end
              | Raise e => Raise e
              | OutOfFuel => OutOfFuel
              end
            end
        end
      end
  end.



(** ** The default argument and the script's entry point *)

(** [def DPLL(clauses, symbols=None, model={})]: the default value of
    [model] is one dictionary, created when the function is defined and kept
    by the process; a call that leaves [model] out works on that object. *)
Record process : Type := Process {
  DPLL_default_model : gmap Z bool
}.

Definition fresh_process : process := Process ∅.

(** The call [DPLL(clauses)]. *)
Definition DPLL_default `{IterOrder} (fuel : nat) (clauses : gset (list Z))
    (p : process) : outcome (pyvalue * gset (list Z) * process) :=
  match DPLL fuel clauses None (DPLL_default_model p) with
  | Ret (result, clauses1, model1) => Ret (result, clauses1, Process model1)
  | Raise e => Raise e
  | OutOfFuel => OutOfFuel
  end.

(** The last line the script prints. *)
Inductive report : Type :=
  | Satisfiable_with_model (m : option (gmap Z bool))
  | Unsatisfiable.

(** The [__main__] block, run once in a new process. *)
Definition main `{IterOrder} (fuel : nat) (file : list string)
    : outcome (list message * report) :=
  match parse_file file with
  | Ret l =>
      match DPLL_default fuel (loaded_cnf l) fresh_process with
      | Ret (result, _, _) =>
          Ret (printed l,
               match result with
               | PyTuple _ m => Satisfiable_with_model m
               | PyNone => Unsatisfiable
               end)
      | Raise e => Raise e
      | OutOfFuel => OutOfFuel
      end
  | Raise e => Raise e
  | OutOfFuel => OutOfFuel
  end.

(** ** Truth of a clause under a model

    A positive literal is true when its variable is mapped to [True], a
    negative one when its variable is mapped to [False]. *)
Definition lit_true (model : gmap Z bool) (lit : Z) : bool :=
  bool_decide (model !! Z.abs lit = Some (0 <? lit)).

Definition clause_true (model : gmap Z bool) (clause : list Z) : bool :=
  existsb (lit_true model) clause.

(** ** Reading a generator as a whole *)

(** The clauses a generator yields, and how it ends: [None] for the end of
    the iteration, [Some e] for the exception [e]. *)
Fixpoint yields (g : gen) : list (list Z) :=
  match g with
  | GStop | GRaise _ => []
  | GYield c next => c :: yields next
  end.

Fixpoint ending (g : gen) : option exn :=
  match g with
  | GStop => None
  | GRaise e => Some e
  | GYield _ next => ending next
  end.

(** Every literal of the clause is within the bound. *)
Definition within (nb_lit : Z) (c : list Z) : Prop :=
  ∀ lit, lit ∈ c → Z.abs lit ≤ nb_lit.

(** The range of literals as the data model states it. *)
Definition literals_in_range (l : loaded) : Prop :=
  ∀ c lit, c ∈ loaded_cnf l → lit ∈ c → 1 ≤ Z.abs lit ≤ loaded_nb_lit l.

(** Two clauses with the same literals, order and repetitions apart. *)
Definition same_literals (c1 c2 : list Z) : Prop :=
  ∀ lit, lit ∈ c1 ↔ lit ∈ c2.
(** ** What [pure_literal] computes, independently of the iteration order *)

(** Variable [v] occurs in the clause set, and occurs with sign [b]. *)
Definition occurs (v : Z) (cnf : gset (list Z)) : Prop :=
  ∃ c l, c ∈ cnf ∧ l ∈ c ∧ Z.abs l = v.

Definition occurs_as (v : Z) (b : bool) (cnf : gset (list Z)) : Prop :=
  ∃ c l, c ∈ cnf ∧ l ∈ c ∧ Z.abs l = v ∧ (0 <? l) = b.

(** All occurrences of [v] have one sign. *)
Definition single_signed (v : Z) (cnf : gset (list Z)) : Prop :=
  ∀ b b', occurs_as v b cnf → occurs_as v b' cnf → b = b'.

(** The variables the function looks at: the given domain when it is
    established, the variables of the clause set otherwise. *)
Definition candidate (symbols : option (gset Z)) (cnf : gset (list Z))
    (v : Z) : Prop :=
  if established symbols then v ∈ default ∅ symbols else occurs v cnf.

Definition pure_var (symbols : option (gset Z)) (cnf : gset (list Z))
    (v : Z) : Prop :=
  candidate symbols cnf v ∧ single_signed v cnf.


(** The signs with which [v] occurs, for clause sets given in full. *)
Definition signs_of (v : Z) (cnf : gset (list Z)) : list bool :=
  (λ l, 0 <? l) <$> filter (λ l, Z.abs l = v) (concat (elements cnf)).

Definition occurs_asb (v : Z) (b : bool) (cnf : gset (list Z)) : bool :=
  existsb (Bool.eqb b) (signs_of v cnf).

Definition occursb (v : Z) (cnf : gset (list Z)) : bool :=
  match signs_of v cnf with
  | [] => false
  | _ :: _ => true
  end.

Definition single_signedb (v : Z) (cnf : gset (list Z)) : bool :=
  match signs_of v cnf with
  | [] => true
  | b :: bs => forallb (Bool.eqb b) bs
  end.

(** The contract of [pure_literal] in the words of its description: every
    variable with occurrences of a single sign is set to that sign, leaves
    the symbol domain, and takes its clauses with it; a domain that is not
    established is derived from the clause set. *)
Definition pure_literal_described `{IterOrder} (cnf : gset (list Z))
    (symbols : option (gset Z)) (model : gmap Z bool) : Prop :=
  (cnf = ∅ → pure_literal cnf symbols model = Ret (None, model)) ∧
  (cnf ≠ ∅ →
   ∃ cs ss model',
     pure_literal cnf symbols model = Ret (Some (cs, ss), model') ∧
     (∀ v b, occurs_as v b cnf → single_signed v cnf →
        model' !! v = Some b ∧ v ∉ ss ∧
        ∀ c l, c ∈ cnf → l ∈ c → Z.abs l = v → c ∉ cs) ∧
     (established symbols = false → ∀ v, v ∈ ss → occurs v cnf)).
(** What the scan has established after the literals [lits], in the order
    of the iteration. *)
Definition pl_inv (symbols : option (gset Z)) (lits : list Z)
    (st : pl_state) : Prop :=
  (∀ v, polarity st !! v = None ↔ ∀ l, l ∈ lits → Z.abs l ≠ v) ∧
  (∀ v b, polarity st !! v = Some b →
          ∃ l, l ∈ lits ∧ Z.abs l = v ∧ (0 <? l) = b) ∧
  (∀ v, v ∈ new_symb st ↔
        if established symbols then v ∈ pl_init symbols
        else ∃ l, l ∈ lits ∧ Z.abs l = v) ∧
  (∀ v, v ∈ pure_literals st ↔
        v ∈ new_symb st ∧
        ∀ l, l ∈ lits → Z.abs l = v → polarity st !! v = Some (0 <? l)).

(** ** Every behaviour of the search at once

    The iteration order decides two things only: which unit clause
    [remove_unit_clauses] meets first, and which unassigned symbol the
    branching loop meets first.  [DPLL_all] follows every such choice and
    lists the outcomes, so that a statement about all iteration orders on a
    given input can be settled by evaluation ([DPLL_in_all] below). *)

Definition unit_of (model : gmap Z bool) (c : list Z) : option (list Z * Z) :=
  match scan_clause model c None with
  | Finished (Some unit_literal) => Some (c, unit_literal)
  | _ => None
  end.

Definition unit_choices (clauses : gset (list Z)) (model : gmap Z bool)
    : list (list Z * Z) :=
  omap (unit_of model) (elements clauses).

Fixpoint DPLL_all (fuel : nat) (clauses : gset (list Z))
    (symbols : option (gset Z)) (model : gmap Z bool)
    : list (outcome (pyvalue * gset (list Z) * gmap Z bool)) :=
  match fuel with
  | O => [OutOfFuel]
  | S fuel =>
    if bool_decide (clauses = ∅) then [Ret (PyTuple true None, clauses, model)]
    else if bool_decide (model ≠ ∅)
            && @all_clauses_hold elements_order clauses model
    then [Ret (PyTuple true (Some model), clauses, model)]
    else if match symbols with
            | Some ss => bool_decide (size model = size ss)
            | None => false
            end
    then [Ret (PyTuple false (Some model), clauses, model)]
    else
      match unit_choices clauses model with
      | (_ :: _) as units =>
        flat_map (λ cu : list Z * Z,
          DPLL_all fuel (clauses ∖ {[cu.1]}) symbols
                   (<[Z.abs cu.2 := 0 <? cu.2]> model)) units
      | [] =>
        match @pure_literal elements_order clauses symbols model with
        | Raise e => [Raise e]
        | OutOfFuel => [OutOfFuel]
        | Ret (None, model') => [Ret (PyTuple true (Some model'), clauses, model')]
        | Ret (Some (clauses', symbols'), model') =>
          if bool_decide (clauses' = ∅)
          then [Ret (PyTuple true (Some model'), clauses, model')]
          else
            match elements (symbols' ∖ dom model') with
            | [] => [Ret (PyNone, clauses, model')]
            | (_ :: _) as vars =>
              flat_map (λ s,
                flat_map (λ r1,
                  match r1 with
                  | Ret (result, clauses1, model1) =>
                    if truthy result
                    then [Ret (PyTuple true (Some model1), clauses, model1)]
                    else
                      map (λ r2,
                        match r2 with
                        | Ret (result2, _, model2) =>
                            Ret (result2, clauses, model2)
                        | Raise e => Raise e
                        | OutOfFuel => OutOfFuel
                        end)
                        (DPLL_all fuel clauses1 (Some symbols')
                                  (<[s := false]> model1))
                  | Raise e => [Raise e]
                  | OutOfFuel => [OutOfFuel]
                  end)
                  (DPLL_all fuel clauses' (Some symbols') (<[s := true]> model')))
                vars
            end
        end
      end
  end.


(** ** Inputs used below *)

(** The two unit clauses [{1}] and [{-1}], and a file that holds them. *)
Definition contradictory_pair : gset (list Z) := {[ [1]; [-1] ]}.

Definition contradictory_file : list string :=
  ["2 1"; "1 0"; "-1 0"]%string.

(** The four clauses over two variables: no assignment satisfies them. *)
Definition four_clauses : gset (list Z) :=
  {[ [1; 2]; [-1; -2]; [1; -2]; [-1; 2] ]}.

(** The contradictory pair with a tautology. *)
Definition pair_with_tautology : gset (list Z) := {[ [1]; [-1]; [1; -1] ]}.

(** Six clauses over six variables: variables 1, 2 and 6 are pure, variable 3
    occurs only beside them, variables 4 and 5 carry the four clauses. *)
Definition vanishing_symbol : gset (list Z) :=
  {[ [1; 6; 3]; [2; -3]; [4; 5]; [-4; -5]; [4; -5]; [-4; 5] ]}.

(** What the first pass of [pure_literal] makes of these six clauses: the
    clauses without a pure variable, the domain it hands back, and the
    dictionary with the pure variables set. *)
Definition surviving_clauses : gset (list Z) :=
  {[ [4; 5]; [-4; -5]; [4; -5]; [-4; 5] ]}.
Definition surviving_symbols : gset Z := {[3; 4; 5]}.
Definition pure_model : gmap Z bool := {[1 := true; 2 := true; 6 := true]}.

(** Checks on an outcome of [DPLL], as boolean functions so that they can be
    evaluated on [DPLL_all]. *)
Definition returns_true_with_model
    (r : outcome (pyvalue * gset (list Z) * gmap Z bool)) : bool :=
  match r with
  | Ret (PyTuple true (Some m), _, m') => bool_decide (m = m')
  | _ => false
  end.

Definition returns_false_with_model
    (r : outcome (pyvalue * gset (list Z) * gmap Z bool)) : bool :=
  match r with
  | Ret (PyTuple false (Some m), _, m') => bool_decide (m = m')
  | _ => false
  end.

Definition returns_true_falsifying (F : gset (list Z))
    (r : outcome (pyvalue * gset (list Z) * gmap Z bool)) : bool :=
  match r with
  | Ret (PyTuple true (Some m), _, m') =>
      bool_decide (m = m')
      && existsb (λ c, negb (clause_true m c)) (elements F)
  | _ => false
  end.

Definition returns_None
    (r : outcome (pyvalue * gset (list Z) * gmap Z bool)) : bool :=
  match r with
  | Ret (PyNone, _, _) => true
  | _ => false
  end.

Definition raises_KeyError
    (r : outcome (pyvalue * gset (list Z) * gmap Z bool)) : bool :=
  match r with
  | Raise KeyError => true
  | _ => false
  end.

(** Two formulas for two successive top-level calls. *)
Definition first_formula : gset (list Z) := {[ [1] ]}.
Definition second_formula : gset (list Z) := {[ [-1]; [1; -1] ]}.

Definition returns_true_without_model_leaving (left : gmap Z bool)
    (r : outcome (pyvalue * gset (list Z) * gmap Z bool)) : bool :=
  match r with
  | Ret (PyTuple true None, _, m) => bool_decide (m = left)
  | _ => false
  end.

Definition returns_true_with (expected : gmap Z bool)
    (r : outcome (pyvalue * gset (list Z) * gmap Z bool)) : bool :=
  match r with
  | Ret (PyTuple true (Some m), _, _) => bool_decide (m = expected)
  | _ => false
  end.

(** Inputs for [pure_literal]. *)
Definition three_clauses : gset (list Z) := {[ [1; 2]; [-2; 3]; [2; -4]; [4] ]}.

(** Files for the loader. *)
Definition fused_file : list string := ["1 20"; "10 20"; "3 0"]%string.
Definition zero_literal_file : list string := ["1 1"; "0 1 0"]%string.
Definition out_of_range_file : list string :=
  ["2 3"; "1 -2 0"; "5 0"]%string.
Definition reordered_file : list string := ["2 2"; "1 2 0"; "2 1 0"]%string.
Definition repeated_file : list string := ["2 2"; "1 2 0"; "1 2 0"]%string.

(** ** Notions used to state further properties *)

(** The variable of the literal has a value in the dictionary. *)
Definition assigned (model : gmap Z bool) (lit : Z) : Prop :=
  is_Some (model !! Z.abs lit).

(** [u] is the one literal occurrence of [c] whose variable has no value:
    every literal before it and after it in the tuple is assigned. *)
Definition unit_in (model : gmap Z bool) (c : list Z) (u : Z) : Prop :=
  ∃ pre post, c = pre ++ u :: post ∧ model !! Z.abs u = None ∧
              Forall (assigned model) pre ∧ Forall (assigned model) post.

(** The variables of a clause set. *)
Definition variables (clauses : gset (list Z)) : gset Z :=
  list_to_set (Z.abs <$> concat (elements clauses)).

(** A bound on the depth of the recursion: the clauses left, and the
    variables of the clauses and of the symbol domain without a value. *)
Definition pending (clauses : gset (list Z)) (symbols : option (gset Z))
    (model : gmap Z bool) : nat :=
  (size clauses
   + size ((variables clauses ∪ default ∅ symbols) ∖ dom model))%nat.

(** Files and lines used with the properties of the loader. *)
Definition one_clause_file : list string := ["1 2"; "1 -2 0"]%string.
Definition no_clause_lines : list string := ["not a clause 0"]%string.
Definition blank_line : string :=
  String " "%char (String "009"%char (String " "%char EmptyString)).
Definition split_clause_start : list string := ["1 -2"]%string.
Definition split_clause_end : list string := ["3 0"]%string.
Definition one_line_clause : string := "1 -2 3 0"%string.
Definition one_line_body : list ascii := list_ascii_of_string "1 -2 3".
Definition first_half : string := "1 -21"%string.
Definition second_half : string := "3 0"%string.
Definition second_half_body : list ascii := list_ascii_of_string "3".

(** * Properties *)

(** ** Properties of the pure-literal scan *)

Section pure_literal_scan.
Context (symbols : option (gset Z)).

Local Notation est := (established symbols).
Local Notation init := (pl_init symbols).

Lemma pl_inv_init : pl_inv symbols [] (PlState ∅ init init).
Proof.
  unfold pl_inv; simpl. split; [|split; [|split]].
  - intros v. split.
    + intros _ l Hl. inversion Hl.
    + intros _. apply lookup_empty.
  - intros v b Hv. rewrite lookup_empty in Hv. discriminate.
  - intros v. unfold pl_init.
    destruct (established symbols); [done|]. split.
    + intros Hv. set_solver.
    + intros (l & Hl & _). inversion Hl.
  - intros v. split; [|tauto]. intros Hv. split; [done|].
    intros l Hl. inversion Hl.
Qed.

Lemma pl_inv_step lits st lit :
  pl_inv symbols lits st → pl_inv symbols (lits ++ [lit]) (pl_lit symbols st lit).
Proof.
  intros (Hnone & Hsome & Hsym & Hpure).
  unfold pl_lit.
  destruct (polarity st !! Z.abs lit) as [p|] eqn:Hp.
  - (* the variable was seen before *)
    assert (Hkeep : ∀ v, (∀ l, l ∈ lits ++ [lit] → Z.abs l ≠ v) ↔
                         (∀ l, l ∈ lits → Z.abs l ≠ v)).
    { intros v. split; intros Hv l Hl.
      - apply Hv. set_solver.
      - apply elem_of_app in Hl as [Hl|Hl]; [by apply Hv|].
        apply list_elem_of_singleton in Hl as ->.
        intros <-. apply Hnone in Hv. congruence. }
    assert (Hsome' : ∀ v b, polarity st !! v = Some b →
              ∃ l, l ∈ lits ++ [lit] ∧ Z.abs l = v ∧ (0 <? l) = b).
    { intros v b Hv. destruct (Hsome v b Hv) as (l & ? & ? & ?).
      exists l. set_solver. }
    assert (Hsym' : ∀ v, v ∈ new_symb st ↔
              if est then v ∈ init
              else ∃ l, l ∈ lits ++ [lit] ∧ Z.abs l = v).
    { intros v. rewrite Hsym. destruct est; [done|]. split.
      - intros (l & ? & ?). exists l. set_solver.
      - intros (l & Hl & Hv).
        apply elem_of_app in Hl as [Hl|Hl]; [by exists l|].
        apply list_elem_of_singleton in Hl as ->.
        destruct (Hsome _ _ Hp) as (l' & ? & ? & ?). exists l'.
        split; [done|congruence]. }
    case_bool_decide as Hneq; unfold pl_inv; simpl.
    + split; [|split; [|split]]; [by intros v; rewrite Hkeep|done|done|].
      intros v. rewrite elem_of_difference, Hpure. split.
      * intros [[Hv Hall] Hne]. split; [done|]. intros l Hl Habs.
        apply elem_of_app in Hl as [Hl|Hl]; [by apply Hall|].
        apply list_elem_of_singleton in Hl as ->. set_solver.
      * intros [Hv Hall]. split.
        -- split; [done|]. intros l Hl. apply Hall. set_solver.
        -- intros Hin. apply elem_of_singleton in Hin as ->.
           specialize (Hall lit). rewrite Hp in Hall.
           assert (Some p = Some (0 <? lit)) by (apply Hall; set_solver).
           congruence.
    + assert (p = (0 <? lit)) as -> by (by destruct p, (0 <? lit)).
      split; [|split; [|split]]; [by intros v; rewrite Hkeep|done|done|].
      intros v. rewrite Hpure. split.
      * intros [Hv Hall]. split; [done|]. intros l Hl Habs.
        apply elem_of_app in Hl as [Hl|Hl]; [by apply Hall|].
        apply list_elem_of_singleton in Hl as ->. congruence.
      * intros [Hv Hall]. split; [done|].
        intros l Hl. apply Hall. set_solver.
  - (* first occurrence of the variable *)
    assert (Hfresh : ∀ l, l ∈ lits → Z.abs l ≠ Z.abs lit) by (by apply Hnone).
    assert (Hpol : ∀ v, v ≠ Z.abs lit →
              <[Z.abs lit := 0 <? lit]> (polarity st) !! v = polarity st !! v).
    { intros v Hv. by rewrite lookup_insert_ne. }
    assert (Hinv : pl_inv symbols (lits ++ [lit])
              (PlState (<[Z.abs lit := 0 <? lit]> (polarity st))
                 (if est then new_symb st else {[Z.abs lit]} ∪ new_symb st)
                 (if est then pure_literals st
                  else {[Z.abs lit]} ∪ pure_literals st))).
    { unfold pl_inv; simpl. split; [|split; [|split]].
      - intros v. split.
        + intros Hv l Hl. destruct (decide (v = Z.abs lit)) as [->|Hne].
          * by rewrite lookup_insert_eq in Hv.
          * rewrite Hpol in Hv by done.
            apply elem_of_app in Hl as [Hl|Hl]; [by apply Hnone|].
            apply list_elem_of_singleton in Hl as ->. congruence.
        + intros Hv. destruct (decide (v = Z.abs lit)) as [->|Hne].
          * exfalso. apply (Hv lit); set_solver.
          * rewrite Hpol by done. apply Hnone.
            intros l Hl. apply Hv. set_solver.
      - intros v b Hv. destruct (decide (v = Z.abs lit)) as [->|Hne].
        + rewrite lookup_insert_eq in Hv. exists lit. set_solver.
        + rewrite Hpol in Hv by done.
          destruct (Hsome v b Hv) as (l & ? & ? & ?). exists l. set_solver.
      - intros v. split.
        + intros Hv. destruct est eqn:Hest.
          * by apply Hsym in Hv.
          * apply elem_of_union in Hv as [Hv|Hv].
            -- apply elem_of_singleton in Hv as ->. exists lit. set_solver.
            -- apply Hsym in Hv as (l & ? & ?). exists l. set_solver.
        + intros Hv. destruct est eqn:Hest.
          * by apply Hsym.
          * destruct Hv as (l & Hl & Hv).
            apply elem_of_app in Hl as [Hl|Hl].
            -- apply elem_of_union. right. apply Hsym. by exists l.
            -- apply list_elem_of_singleton in Hl as ->. set_solver.
      - intros v. split.
        + intros Hv. split.
          * destruct est eqn:Hest.
            -- by apply Hpure in Hv as [? _].
            -- apply elem_of_union in Hv as [Hv|Hv]; [set_solver|].
               apply Hpure in Hv as [? _]. set_solver.
          * intros l Hl Habs. destruct (decide (v = Z.abs lit)) as [->|Hne].
            -- rewrite lookup_insert_eq.
               apply elem_of_app in Hl as [Hl|Hl]; [by apply Hfresh in Hl|].
               by apply list_elem_of_singleton in Hl as ->.
            -- rewrite Hpol by done.
               apply elem_of_app in Hl as [Hl|Hl].
               ++ assert (v ∈ pure_literals st) as Hin
                    by (destruct est; set_solver).
                  apply Hpure in Hin as [_ Hin]. by apply Hin.
               ++ apply list_elem_of_singleton in Hl as ->. congruence.
        + intros [Hv Hall]. destruct (decide (v = Z.abs lit)) as [->|Hne].
          * destruct est eqn:Hest; [|set_solver].
            apply Hpure. split; [done|]. intros l Hl Habs.
            by apply Hfresh in Hl.
          * assert (v ∈ pure_literals st) as Hin.
            { apply Hpure. split; [destruct est; set_solver|].
              intros l Hl Habs. rewrite <- Hpol by done.
              apply Hall; set_solver. }
            destruct est; set_solver. }
    by destruct est.
Qed.

Lemma pl_inv_fold more : ∀ lits st,
  pl_inv symbols lits st →
  pl_inv symbols (lits ++ more) (fold_left (pl_lit symbols) more st).
Proof.
  induction more as [|lit more IH]; intros lits st Hinv; simpl.
  - by rewrite app_nil_r.
  - replace (lits ++ lit :: more) with ((lits ++ [lit]) ++ more)
      by (by rewrite <- app_assoc).
    by apply IH, pl_inv_step.
Qed.

Lemma pl_scan_concat todo : ∀ st,
  pl_scan symbols todo st = fold_left (pl_lit symbols) (concat todo) st.
Proof.
  unfold pl_scan.
  induction todo as [|c todo IH]; intros st; simpl; [done|].
  by rewrite fold_left_app, IH.
Qed.

Lemma pl_scan_inv todo :
  pl_inv symbols (concat todo) (pl_scan symbols todo (PlState ∅ init init)).
Proof.
  rewrite pl_scan_concat.
  apply (pl_inv_fold (concat todo) [] _ pl_inv_init).
Qed.
End pure_literal_scan.

Lemma occurs_as_occurs v b cnf : occurs_as v b cnf → occurs v cnf.
Proof. intros (c & l & ? & ? & ? & ?). by exists c, l. Qed.

Lemma occurs_occurs_as v cnf : occurs v cnf → ∃ b, occurs_as v b cnf.
Proof. intros (c & l & ? & ? & ?). exists (0 <? l), c, l. done. Qed.

Lemma elem_of_concat (todo : list (list Z)) (l : Z) :
  l ∈ concat todo ↔ ∃ c, c ∈ todo ∧ l ∈ c.
Proof.
  rewrite list_elem_of_In, in_concat. split.
  - intros (c & Hc & Hl). exists c. by rewrite !list_elem_of_In.
  - intros (c & Hc & Hl). exists c. by rewrite <- !list_elem_of_In.
Qed.

Section pure_literal_char.
Context (symbols : option (gset Z)) (cnf : gset (list Z)).
Context (todo : list (list Z)) (Htodo : ∀ c, c ∈ todo ↔ c ∈ cnf).

Local Notation st :=
  (pl_scan symbols todo (PlState ∅ (pl_init symbols) (pl_init symbols))).

Lemma occurs_todo v : occurs v cnf ↔ ∃ l, l ∈ concat todo ∧ Z.abs l = v.
Proof.
  unfold occurs. split.
  - intros (c & l & Hc & Hl & Hv). exists l. split; [|done].
    apply elem_of_concat. exists c. by rewrite Htodo.
  - intros (l & Hl & Hv). apply elem_of_concat in Hl as (c & Hc & Hl).
    exists c, l. by rewrite <- Htodo.
Qed.

Lemma occurs_as_todo v b :
  occurs_as v b cnf ↔ ∃ l, l ∈ concat todo ∧ Z.abs l = v ∧ (0 <? l) = b.
Proof.
  unfold occurs_as. split.
  - intros (c & l & Hc & Hl & Hv). exists l. split; [|done].
    apply elem_of_concat. exists c. by rewrite Htodo.
  - intros (l & Hl & Hv). apply elem_of_concat in Hl as (c & Hc & Hl).
    exists c, l. by rewrite <- Htodo.
Qed.

Lemma pl_scan_new_symb v : v ∈ new_symb st ↔ candidate symbols cnf v.
Proof.
  destruct (pl_scan_inv symbols todo) as (_ & _ & Hsym & _).
  rewrite Hsym. unfold candidate, pl_init.
  destruct (established symbols); [done|]. by rewrite occurs_todo.
Qed.

Lemma pl_scan_pure v : v ∈ pure_literals st ↔ pure_var symbols cnf v.
Proof.
  destruct (pl_scan_inv symbols todo) as (Hnone & Hsome & _ & Hpure).
  rewrite Hpure, pl_scan_new_symb. unfold pure_var, single_signed.
  split; intros [Hc Hs]; (split; [done|]).
  - intros b b' Hb Hb'.
    apply occurs_as_todo in Hb as (l & Hl & Hv & <-).
    apply occurs_as_todo in Hb' as (l' & Hl' & Hv' & <-).
    pose proof (Hs l Hl Hv) as H1. pose proof (Hs l' Hl' Hv') as H2.
    congruence.
  - intros l Hl Hv.
    destruct (polarity st !! v) as [b|] eqn:Hp.
    + destruct (Hsome v b Hp) as (l' & Hl' & Hv' & Hb'). f_equal.
      apply Hs; apply occurs_as_todo; eauto.
    + exfalso. by apply (proj1 (Hnone v) Hp l).
Qed.

Lemma pl_scan_polarity v b :
  v ∈ pure_literals st → polarity st !! v = Some b ↔ occurs_as v b cnf.
Proof.
  destruct (pl_scan_inv symbols todo) as (_ & Hsome & _ & Hpure).
  intros Hv. apply Hpure in Hv as [_ Hv]. rewrite occurs_as_todo. split.
  - apply Hsome.
  - intros (l & Hl & Habs & <-). by apply Hv.
Qed.

Lemma pl_scan_polarity_None v :
  v ∈ pure_literals st → polarity st !! v = None ↔ ¬ occurs v cnf.
Proof.
  destruct (pl_scan_inv symbols todo) as (Hnone & _).
  intros _. rewrite Hnone, occurs_todo. split.
  - intros Hv (l & Hl & Habs). by apply (Hv l).
  - intros Hv l Hl Habs. apply Hv. by exists l.
Qed.
End pure_literal_char.

Lemma assign_pure_Ret todo pol : ∀ model,
  (∀ v, v ∈ todo → is_Some (pol !! v)) →
  ∃ model', assign_pure todo pol model = Ret model' ∧
            ∀ k, model' !! k = if decide (k ∈ todo) then pol !! k
                               else model !! k.
Proof.
  induction todo as [|lit todo IH]; intros model Hsome; simpl.
  - exists model. split; [done|]. intros k.
    destruct (decide (k ∈ [])) as [Hk|]; [inversion Hk|done].
  - destruct (Hsome lit) as [b Hb]; [set_solver|]. rewrite Hb.
    destruct (IH (<[lit := b]> model)) as (model' & Hrun & Hlook).
    { intros v Hv. apply Hsome. set_solver. }
    exists model'. split; [done|]. intros k. rewrite Hlook.
    destruct (decide (k ∈ todo)) as [Hk|Hk].
    + rewrite decide_True by set_solver. done.
    + destruct (decide (k = lit)) as [->|Hne].
      * rewrite decide_True by set_solver. by rewrite lookup_insert_eq.
      * rewrite decide_False by set_solver. by rewrite lookup_insert_ne.
Qed.

Lemma assign_pure_Raise todo pol : ∀ model,
  (∃ v, v ∈ todo ∧ pol !! v = None) →
  assign_pure todo pol model = Raise KeyError.
Proof.
  induction todo as [|lit todo IH]; intros model (v & Hv & Hnone); simpl.
  - inversion Hv.
  - destruct (pol !! lit) as [b|] eqn:Hb; [|done].
    apply IH. exists v. split; [|done].
    apply elem_of_cons in Hv as [->|Hv]; [congruence|done].
Qed.

Lemma assign_pure_order todo1 todo2 pol1 pol2 model :
  (∀ v, v ∈ todo1 ↔ v ∈ todo2) →
  (∀ v, v ∈ todo1 → pol1 !! v = pol2 !! v) →
  assign_pure todo1 pol1 model = assign_pure todo2 pol2 model.
Proof.
  intros Hmem Hpol.
  destruct (decide (Forall (λ v, is_Some (pol1 !! v)) todo1)) as [Hall|Hex].
  - rewrite Forall_forall in Hall.
    destruct (assign_pure_Ret todo1 pol1 model) as (m1 & -> & H1); [done|].
    destruct (assign_pure_Ret todo2 pol2 model) as (m2 & -> & H2).
    { intros v Hv. apply Hmem in Hv. rewrite <- Hpol by done. by apply Hall. }
    f_equal. apply map_eq. intros k. rewrite H1, H2.
    destruct (decide (k ∈ todo1)) as [Hk|Hk].
    + rewrite decide_True by (by apply Hmem). by apply Hpol.
    + rewrite decide_False by (by rewrite <- Hmem). done.
  - apply not_Forall_Exists in Hex; [|apply _].
    apply Exists_exists in Hex as (v & Hv & Hnone).
    apply eq_None_not_Some in Hnone.
    rewrite (assign_pure_Raise todo1) by eauto.
    rewrite (assign_pure_Raise todo2); [done|].
    exists v. split; [by apply Hmem|]. by rewrite <- Hpol.
Qed.

Lemma iter_clauses_elem `{IterOrder} (X : gset (list Z)) c :
  c ∈ iter_clauses X ↔ c ∈ X.
Proof. by rewrite iter_clauses_perm, elem_of_elements. Qed.

Lemma iter_symbols_elem `{IterOrder} (X : gset Z) v :
  v ∈ iter_symbols X ↔ v ∈ X.
Proof. by rewrite iter_symbols_perm, elem_of_elements. Qed.

(** [pure_literal] gives the same result whatever the iteration order. *)
Lemma pure_literal_order (o1 o2 : IterOrder) cnf symbols model :
  @pure_literal o1 cnf symbols model = @pure_literal o2 cnf symbols model.
Proof.
  unfold pure_literal. case_bool_decide; [done|].
  set (st1 := pl_scan symbols (@iter_clauses o1 cnf) _).
  set (st2 := pl_scan symbols (@iter_clauses o2 cnf) _).
  assert (Hpure : pure_literals st1 = pure_literals st2).
  { apply set_eq. intros v. unfold st1, st2.
    rewrite !(pl_scan_pure symbols cnf); [done| |];
      intros c; apply iter_clauses_elem. }
  assert (Hsym : new_symb st1 = new_symb st2).
  { apply set_eq. intros v. unfold st1, st2.
    rewrite !(pl_scan_new_symb symbols cnf); [done| |];
      intros c; apply iter_clauses_elem. }
  assert (Hpol : ∀ v, v ∈ pure_literals st1 →
                      polarity st1 !! v = polarity st2 !! v).
  { intros v Hv. apply option_eq. intros b.
    assert (v ∈ pure_literals st2) as Hv2 by (by rewrite <- Hpure).
    unfold st1, st2 in *.
    rewrite !(pl_scan_polarity symbols cnf); [done| | | |]; try done;
      intros c; apply iter_clauses_elem. }
  rewrite (assign_pure_order _ (@iter_symbols o2 (pure_literals st2))
             (polarity st1) (polarity st2)).
  - by rewrite Hpure, Hsym.
  - intros v. by rewrite !iter_symbols_elem, Hpure.
  - intros v Hv. apply Hpol. by apply iter_symbols_elem in Hv.
Qed.

Lemma forallb_Permutation {A} (f : A → bool) (l1 l2 : list A) :
  l1 ≡ₚ l2 → forallb f l1 = forallb f l2.
Proof.
  induction 1 as [|x l1 l2 _ IH|x y l|l1 l2 l3 _ IH1 _ IH2]; simpl.
  - done.
  - by rewrite IH.
  - by destruct (f x), (f y).
  - by rewrite IH1.
Qed.

Lemma all_clauses_hold_order (o1 o2 : IterOrder) clauses model :
  @all_clauses_hold o1 clauses model = @all_clauses_hold o2 clauses model.
Proof.
  unfold all_clauses_hold. apply forallb_Permutation.
  by rewrite !iter_clauses_perm.
Qed.

(** The loop of [remove_unit_clauses] either meets no unit clause at all, or
    stops at some unit clause of the list it iterates over. *)
Lemma remove_unit_loop_cases todo clauses model :
  (remove_unit_loop todo clauses model = (false, clauses, model) ∧
   ∀ c, c ∈ todo → unit_of model c = None) ∨
  (∃ c u, c ∈ todo ∧ unit_of model c = Some (c, u) ∧
     remove_unit_loop todo clauses model =
       (true, clauses ∖ {[c]}, <[Z.abs u := 0 <? u]> model)).
Proof.
  induction todo as [|c todo IH]; simpl.
  - left. split; [done|]. intros c Hc. inversion Hc.
  - destruct (scan_clause model c None) as [|[u|]] eqn:Hscan.
    + destruct IH as [[-> Hno]|(c' & u' & Hc' & Hu' & ->)].
      * left. split; [done|]. intros c' Hc'.
        apply elem_of_cons in Hc' as [->|Hc']; [|by apply Hno].
        unfold unit_of. by rewrite Hscan.
      * right. exists c', u'. set_solver.
    + right. exists c, u. unfold unit_of. rewrite Hscan. set_solver.
    + destruct IH as [[-> Hno]|(c' & u' & Hc' & Hu' & ->)].
      * left. split; [done|]. intros c' Hc'.
        apply elem_of_cons in Hc' as [->|Hc']; [|by apply Hno].
        unfold unit_of. by rewrite Hscan.
      * right. exists c', u'. set_solver.
Qed.

Lemma unit_of_fst model c cu : unit_of model c = Some cu → cu.1 = c.
Proof.
  unfold unit_of. destruct (scan_clause model c None) as [|[u|]]; [done| |done].
  by intros [= <-].
Qed.

Lemma remove_unit_clauses_cases `{IterOrder} clauses model :
  (remove_unit_clauses clauses model = (false, clauses, model) ∧
   unit_choices clauses model = []) ∨
  (∃ c u, (c, u) ∈ unit_choices clauses model ∧
     remove_unit_clauses clauses model =
       (true, clauses ∖ {[c]}, <[Z.abs u := 0 <? u]> model)).
Proof.
  unfold remove_unit_clauses, unit_choices.
  destruct (remove_unit_loop_cases (iter_clauses clauses) clauses model)
    as [[-> Hno]|(c & u & Hc & Hu & ->)].
  - left. split; [done|].
    destruct (omap (unit_of model) (elements clauses)) as [|cu l] eqn:Hl; [done|].
    assert (cu ∈ omap (unit_of model) (elements clauses)) as Hin
      by (rewrite Hl; set_solver).
    apply list_elem_of_omap in Hin as (c & Hc & Hu).
    rewrite Hno in Hu; [done|]. apply iter_clauses_elem.
    by apply elem_of_elements in Hc.
  - right. exists c, u. split; [|done].
    apply list_elem_of_omap. exists c. split; [|done].
    apply elem_of_elements. by apply iter_clauses_elem in Hc.
Qed.

Lemma iter_symbols_nil `{IterOrder} (X : gset Z) :
  iter_symbols X = [] ↔ elements X = [].
Proof.
  split; intros Hnil.
  - apply Permutation_nil_r. by rewrite <- iter_symbols_perm, Hnil.
  - apply Permutation_nil_r. by rewrite iter_symbols_perm, Hnil.
Qed.

(** Whatever the iteration order, the outcome of [DPLL] is one of those
    listed by [DPLL_all]. *)
Theorem DPLL_in_all (o : IterOrder) fuel : ∀ clauses symbols model,
  @DPLL o fuel clauses symbols model ∈ DPLL_all fuel clauses symbols model.
Proof.
  induction fuel as [|fuel IH]; intros clauses symbols model;
    cbn [DPLL DPLL_all].
  { set_solver. }
  case_bool_decide; [set_solver|].
  rewrite (all_clauses_hold_order o elements_order).
  destruct (bool_decide (model ≠ ∅) && _); [set_solver|].
  destruct (match symbols with Some _ => _ | None => _ end); [set_solver|].
  destruct (remove_unit_clauses_cases clauses model)
    as [[-> Hno]|(c & u & Hcu & ->)].
  - rewrite Hno. rewrite (pure_literal_order o elements_order).
    destruct (@pure_literal elements_order clauses symbols model)
      as [[[[clauses' symbols']|] model']| |]; try set_solver.
    case_bool_decide; [set_solver|].
    destruct (iter_symbols (symbols' ∖ dom model')) as [|s rest] eqn:Hs.
    { apply iter_symbols_nil in Hs. rewrite Hs. set_solver. }
    assert (s ∈ elements (symbols' ∖ dom model')) as Hin.
    { apply elem_of_elements, iter_symbols_elem. rewrite Hs. set_solver. }
    destruct (elements (symbols' ∖ dom model')) as [|s0 vars] eqn:Hvars;
      [inversion Hin|].
    cbv beta iota. apply list_elem_of_In, in_flat_map. exists s.
    split; [by apply list_elem_of_In|].
    apply in_flat_map.
    exists (DPLL fuel clauses' (Some symbols') (<[s:=true]> model')).
    split; [apply list_elem_of_In, IH|].
    destruct (DPLL fuel clauses' (Some symbols') (<[s:=true]> model'))
      as [[[result clauses1] model1]| |]; [|by left|by left].
    destruct (truthy result); [by left|].
    apply in_map_iff.
    exists (DPLL fuel clauses1 (Some symbols') (<[s:=false]> model1)).
    split; [|apply list_elem_of_In, IH].
    by destruct (DPLL fuel clauses1 (Some symbols') (<[s:=false]> model1))
      as [[[? ?] ?]| |].
  - destruct (unit_choices clauses model) as [|cu units] eqn:Hunits;
      [inversion Hcu|].
    cbv beta iota. apply list_elem_of_In, in_flat_map. exists (c, u).
    split; [by apply list_elem_of_In|]. apply list_elem_of_In, IH.
Qed.


(** ** What [pure_literal] returns *)

Lemma assign_pure_Ret_inv todo pol : ∀ model model',
  assign_pure todo pol model = Ret model' →
  (∀ v, v ∈ todo → is_Some (pol !! v)) ∧
  ∀ k, model' !! k = if decide (k ∈ todo) then pol !! k else model !! k.
Proof.
  intros model model' Hrun.
  destruct (decide (Forall (λ v, is_Some (pol !! v)) todo)) as [Hall|Hex].
  - rewrite Forall_forall in Hall. split; [done|].
    destruct (assign_pure_Ret todo pol model Hall) as (m & Hm & Hlook).
    rewrite Hm in Hrun. by injection Hrun as <-.
  - apply not_Forall_Exists in Hex; [|apply _].
    apply Exists_exists in Hex as (v & Hv & Hnone).
    apply eq_None_not_Some in Hnone.
    rewrite (assign_pure_Raise todo pol model) in Hrun by eauto. done.
Qed.

Lemma has_pure_false pure clause :
  has_pure pure clause = false ↔ ∀ l, l ∈ clause → Z.abs l ∉ pure.
Proof.
  unfold has_pure. induction clause as [|l clause IH]; simpl.
  - split; [|done]. intros _ l Hl. inversion Hl.
  - rewrite orb_false_iff, IH, bool_decide_eq_false. split.
    + intros [Hl Hrest] l' Hl'.
      apply elem_of_cons in Hl' as [->|Hl']; [done|by apply Hrest].
    + intros Hall. split; [apply Hall; set_solver|].
      intros l' Hl'. apply Hall. set_solver.
Qed.

(** When [pure_literal] returns on a clause set that is not empty, it
    returns the clauses without a pure variable, the candidates that are not
    pure, and a dictionary in which exactly the pure variables are set, each
    to the sign of its occurrences. *)
Lemma pure_literal_Ret (o : IterOrder) cnf symbols model r model' :
  cnf ≠ ∅ →
  @pure_literal o cnf symbols model = Ret (r, model') →
  ∃ cs ss, r = Some (cs, ss) ∧
    (∀ c, c ∈ cs ↔ c ∈ cnf ∧ ∀ l, l ∈ c → ¬ pure_var symbols cnf (Z.abs l)) ∧
    (∀ v, v ∈ ss ↔ candidate symbols cnf v ∧ ¬ pure_var symbols cnf v) ∧
    (∀ v, pure_var symbols cnf v → occurs v cnf) ∧
    (∀ v b, pure_var symbols cnf v → occurs_as v b cnf → model' !! v = Some b) ∧
    (∀ v, ¬ pure_var symbols cnf v → model' !! v = model !! v).
Proof.
  intros Hne. unfold pure_literal. rewrite bool_decide_eq_false_2 by done.
  set (st := pl_scan symbols (iter_clauses cnf) _).
  assert (Htodo : ∀ c, c ∈ iter_clauses cnf ↔ c ∈ cnf)
    by (intros c; apply iter_clauses_elem).
  assert (Hpure : ∀ v, v ∈ pure_literals st ↔ pure_var symbols cnf v)
    by (intros v; by apply pl_scan_pure).
  destruct (assign_pure _ _ _) as [m| |] eqn:Hassign; [|done|done].
  intros [= <- <-]. apply assign_pure_Ret_inv in Hassign as [Hsome Hlook].
  eexists _, _. split; [done|]. split; [|split; [|split; [|split]]].
  - intros c. rewrite elem_of_filter, has_pure_false. split.
    + intros [Hc Hin]. split; [done|]. intros l Hl. rewrite <- Hpure. by apply Hc.
    + intros [Hin Hc]. split; [|done]. intros l Hl. rewrite Hpure. by apply Hc.
  - intros v. rewrite elem_of_difference, Hpure.
    unfold st. by rewrite (pl_scan_new_symb symbols cnf).
  - intros v Hv. apply Hpure in Hv.
    destruct (Hsome v) as [b Hb]; [by apply iter_symbols_elem|].
    apply (pl_scan_polarity symbols cnf) in Hb; [|done|done].
    by eapply occurs_as_occurs.
  - intros v b Hv Hb. apply Hpure in Hv. rewrite Hlook.
    rewrite decide_True by (by apply iter_symbols_elem).
    by apply (pl_scan_polarity symbols cnf).
  - intros v Hv. rewrite Hlook. rewrite decide_False; [done|].
    rewrite iter_symbols_elem, Hpure. done.
Qed.

(** [pure_literal] returns when every pure candidate occurs in the clause
    set, and raises [KeyError] otherwise. *)
Lemma pure_literal_total (o : IterOrder) cnf symbols model :
  cnf ≠ ∅ →
  (∀ v, pure_var symbols cnf v → occurs v cnf) →
  ∃ r model', @pure_literal o cnf symbols model = Ret (r, model').
Proof.
  intros Hne Hocc. unfold pure_literal. rewrite bool_decide_eq_false_2 by done.
  set (st := pl_scan symbols (iter_clauses cnf) _).
  assert (Htodo : ∀ c, c ∈ iter_clauses cnf ↔ c ∈ cnf)
    by (intros c; apply iter_clauses_elem).
  destruct (assign_pure_Ret (iter_symbols (pure_literals st)) (polarity st) model)
    as (m & -> & _); [|by eexists _, _].
  intros v Hv. apply iter_symbols_elem in Hv.
  assert (pure_var symbols cnf v) as Hpure by (by apply (pl_scan_pure symbols cnf _ Htodo)).
  destruct (occurs_occurs_as v cnf (Hocc v Hpure)) as [b Hb].
  exists b. by apply (pl_scan_polarity symbols cnf _ Htodo).
Qed.

Lemma pure_literal_KeyError (o : IterOrder) cnf symbols model v :
  cnf ≠ ∅ → pure_var symbols cnf v → ¬ occurs v cnf →
  @pure_literal o cnf symbols model = Raise KeyError.
Proof.
  intros Hne Hpure Hocc. unfold pure_literal.
  rewrite bool_decide_eq_false_2 by done.
  set (st := pl_scan symbols (iter_clauses cnf) _).
  assert (Htodo : ∀ c, c ∈ iter_clauses cnf ↔ c ∈ cnf)
    by (intros c; apply iter_clauses_elem).
  assert (v ∈ pure_literals st) as Hv by (by apply (pl_scan_pure symbols cnf _ Htodo)).
  rewrite (assign_pure_Raise _ _ model); [done|].
  exists v. split; [by apply iter_symbols_elem|].
  by apply (pl_scan_polarity_None symbols cnf _ Htodo).
Qed.

Lemma occurs_as_signs v b cnf : occurs_as v b cnf ↔ b ∈ signs_of v cnf.
Proof.
  unfold signs_of.
  rewrite (occurs_as_todo cnf (elements cnf)) by (intros c; apply elem_of_elements).
  rewrite list_elem_of_fmap. split.
  - intros (l & Hl & Habs & Hb). exists l. split; [done|].
    by apply list_elem_of_filter.
  - intros (l & Hb & Hl). apply list_elem_of_filter in Hl as [Habs Hl].
    by exists l.
Qed.

Lemma occurs_signs v cnf : occurs v cnf ↔ signs_of v cnf ≠ [].
Proof.
  split.
  - intros Hocc. apply occurs_occurs_as in Hocc as (b & Hb).
    apply occurs_as_signs in Hb. intros Hnil. rewrite Hnil in Hb. inversion Hb.
  - intros Hne. destruct (signs_of v cnf) as [|b bs] eqn:Hs; [done|].
    apply (occurs_as_occurs v b), occurs_as_signs. rewrite Hs. set_solver.
Qed.

Lemma single_signed_signs v cnf :
  single_signed v cnf ↔ ∀ b b', b ∈ signs_of v cnf → b' ∈ signs_of v cnf → b = b'.
Proof.
  unfold single_signed. split; intros Hs b b' Hb Hb'; apply Hs;
    by apply occurs_as_signs.
Qed.

Lemma occurs_as_spec v b cnf : occurs_as v b cnf ↔ occurs_asb v b cnf = true.
Proof.
  rewrite occurs_as_signs. unfold occurs_asb. rewrite existsb_exists. split.
  - intros Hb. exists b. split; [by apply list_elem_of_In|]. by destruct b.
  - intros (b' & Hb' & Heq). apply Bool.eqb_prop in Heq as ->.
    by apply list_elem_of_In.
Qed.

Lemma occurs_spec v cnf : occurs v cnf ↔ occursb v cnf = true.
Proof.
  rewrite occurs_signs. unfold occursb. by destruct (signs_of v cnf).
Qed.

Lemma single_signed_spec v cnf :
  single_signed v cnf ↔ single_signedb v cnf = true.
Proof.
  rewrite single_signed_signs. unfold single_signedb.
  destruct (signs_of v cnf) as [|b bs].
  - split; [done|]. intros _ b b' Hb. inversion Hb.
  - rewrite forallb_forall. split.
    + intros Hs b' Hb'. apply list_elem_of_In in Hb'.
      rewrite (Hs b b'); [by destruct b'| |]; set_solver.
    + intros Hall.
      assert (∀ x, x ∈ b :: bs → x = b) as Hb.
      { intros x Hx. apply elem_of_cons in Hx as [->|Hx]; [done|].
        apply list_elem_of_In, Hall, Bool.eqb_prop in Hx. done. }
      intros x y Hx Hy. by rewrite (Hb x Hx), (Hb y Hy).
Qed.

(** Settles [occurs_as], [occurs], [single_signed] and their negations on a
    clause set given in full. *)
Ltac signs :=
  lazymatch goal with
  | |- occurs_as _ _ _ => apply occurs_as_spec; vm_compute; reflexivity
  | |- occurs _ _ => apply occurs_spec; vm_compute; reflexivity
  | |- single_signed _ _ => apply single_signed_spec; vm_compute; reflexivity
  | |- ¬ occurs_as _ _ _ =>
      let H := fresh in
      intros H; apply occurs_as_spec in H; vm_compute in H; discriminate H
  | |- ¬ occurs _ _ =>
      let H := fresh in
      intros H; apply occurs_spec in H; vm_compute in H; discriminate H
  | |- ¬ single_signed _ _ =>
      let H := fresh in
      intros H; apply single_signed_spec in H; vm_compute in H; discriminate H
  end.

(** ** Fuel

    A call that returns or raises with some fuel does the same with more. *)
Lemma DPLL_fuel_mono (o : IterOrder) fuel : ∀ fuel' clauses symbols model,
  (fuel ≤ fuel')%nat →
  @DPLL o fuel clauses symbols model ≠ OutOfFuel →
  @DPLL o fuel' clauses symbols model = @DPLL o fuel clauses symbols model.
Proof.
  induction fuel as [|fuel IH]; intros fuel' clauses symbols model Hle Hret.
  { by cbn [DPLL] in Hret. }
  destruct fuel' as [|fuel']; [lia|].
  assert (fuel ≤ fuel')%nat as Hle' by lia.
  cbn [DPLL] in *.
  case_bool_decide; [done|].
  destruct (bool_decide (model ≠ ∅) && _); [done|].
  destruct (match symbols with Some _ => _ | None => _ end); [done|].
  destruct (remove_unit_clauses clauses model) as [[[] clauses1] model1].
  { by apply IH. }
  destruct (pure_literal clauses symbols model)
    as [[[[clauses' symbols']|] model']| |]; try done.
  case_bool_decide; [done|].
  destruct (iter_symbols (symbols' ∖ dom model')) as [|s rest]; [done|].
  destruct (DPLL fuel clauses' (Some symbols') (<[s:=true]> model'))
    as [[[result clauses2] model2]| |] eqn:Hfirst; [| |done].
  - rewrite (IH fuel') by (done || by rewrite Hfirst). rewrite Hfirst.
    destruct (truthy result); [done|].
    destruct (DPLL fuel clauses2 (Some symbols') (<[s:=false]> model2))
      as [[[result3 clauses3] model3]| |] eqn:Hsecond; [| |done].
    + rewrite (IH fuel') by (done || by rewrite Hsecond). by rewrite Hsecond.
    + rewrite (IH fuel') by (done || by rewrite Hsecond). by rewrite Hsecond.
  - rewrite (IH fuel') by (done || by rewrite Hfirst). by rewrite Hfirst.
Qed.

(** A check that holds of every listed outcome holds of the outcome of
    [DPLL], for every iteration order and any larger amount of fuel. *)
Lemma DPLL_all_check (o : IterOrder)
    (check : outcome (pyvalue * gset (list Z) * gmap Z bool) → bool)
    fuel extra clauses symbols model :
  check OutOfFuel = false →
  forallb check (DPLL_all fuel clauses symbols model) = true →
  check (@DPLL o (fuel + extra) clauses symbols model) = true.
Proof.
  intros Hfuel Hall.
  assert (check (@DPLL o fuel clauses symbols model) = true) as Hcheck.
  { rewrite forallb_forall in Hall. apply Hall, list_elem_of_In, DPLL_in_all. }
  rewrite (DPLL_fuel_mono o fuel); [done|lia|]. intros Hout. congruence.
Qed.

Lemma returns_true_with_model_inv r :
  returns_true_with_model r = true →
  ∃ m clauses, r = Ret (PyTuple true (Some m), clauses, m).
Proof.
  destruct r as [[[[|[] [m|]] clauses] m']| |]; simpl; try done.
  intros Heq. apply bool_decide_eq_true in Heq as <-. by exists m, clauses.
Qed.

Lemma returns_false_with_model_inv r :
  returns_false_with_model r = true →
  ∃ m clauses, r = Ret (PyTuple false (Some m), clauses, m).
Proof.
  destruct r as [[[[|[] [m|]] clauses] m']| |]; simpl; try done.
  intros Heq. apply bool_decide_eq_true in Heq as <-. by exists m, clauses.
Qed.

Lemma returns_true_falsifying_inv F r :
  returns_true_falsifying F r = true →
  ∃ m clauses c, r = Ret (PyTuple true (Some m), clauses, m) ∧
                 c ∈ F ∧ clause_true m c = false.
Proof.
  destruct r as [[[[|[] [m|]] clauses] m']| |]; simpl; try done.
  intros Heq. apply andb_true_iff in Heq as [Heq Hex].
  apply bool_decide_eq_true in Heq as <-.
  apply existsb_exists in Hex as (c & Hc & Hfalse).
  exists m, clauses, c. split; [done|]. split.
  - by apply elem_of_elements, list_elem_of_In.
  - by apply negb_true_iff.
Qed.

Lemma returns_None_inv r :
  returns_None r = true → ∃ clauses m, r = Ret (PyNone, clauses, m).
Proof.
  destruct r as [[[[|] clauses] m]| |]; simpl; try done.
  intros _. by exists clauses, m.
Qed.

Lemma raises_KeyError_inv r : raises_KeyError r = true → r = Raise KeyError.
Proof. destruct r as [|[]|]; simpl; done. Qed.

(** ** The claims about the search *)

(** C1 (the code departs from it): on the two unit clauses [{1}] and [{-1}],
    loaded from a file with header [2 1], [DPLL] returns a pair whose first
    component is [True], whatever the iteration order and the fuel beyond
    two calls, and the script prints the satisfiable report. *)
Theorem DPLL_contradictory_pair_satisfiable (o : IterOrder) (extra : nat) :
  parse_file contradictory_file
    = Ret (Loaded contradictory_pair 2 1 [Reading 2 1]) ∧
  (∃ m clauses, @DPLL o (2 + extra) contradictory_pair None ∅
                = Ret (PyTuple true (Some m), clauses, m)) ∧
  (∃ m, @main o (2 + extra) contradictory_file
        = Ret ([Reading 2 1], Satisfiable_with_model (Some m))).
Proof.
  assert (Hload : parse_file contradictory_file
                  = Ret (Loaded contradictory_pair 2 1 [Reading 2 1]))
    by (vm_compute; reflexivity).
  destruct (returns_true_with_model_inv
              (@DPLL o (2 + extra) contradictory_pair None ∅))
    as (m & clauses & Hrun).
  { apply (DPLL_all_check o _ 2 extra); [done|]. vm_compute; reflexivity. }
  split; [done|]. split; [by exists m, clauses|].
  exists m. unfold main, DPLL_default. rewrite Hload. simpl loaded_cnf.
  unfold fresh_process, DPLL_default_model. by rewrite Hrun.
Qed.

(** C2 (the code departs from it): on the same two clauses, whatever the
    iteration order, the model returned with [True] makes every literal of
    one of the two clauses false. *)
Theorem DPLL_returns_falsifying_model (o : IterOrder) (extra : nat) :
  ∃ m clauses c,
    @DPLL o (2 + extra) contradictory_pair None ∅
      = Ret (PyTuple true (Some m), clauses, m) ∧
    c ∈ contradictory_pair ∧ clause_true m c = false.
Proof.
  apply returns_true_falsifying_inv, (DPLL_all_check o _ 2 extra); [done|].
  vm_compute; reflexivity.
Qed.

(** C4 (the code departs from it): whatever the iteration order, [DPLL]
    falls off its end and returns [None] on the contradictory pair with a
    tautology, and raises [KeyError] on a formula of six clauses over six
    variables whose literals are all within the declared bound. *)
Theorem DPLL_returns_None_or_raises (o : IterOrder) (extra : nat) :
  (∃ clauses m, @DPLL o (2 + extra) pair_with_tautology None ∅
                = Ret (PyNone, clauses, m)) ∧
  @DPLL o (3 + extra) vanishing_symbol None ∅ = Raise KeyError ∧
  (∀ c lit, c ∈ vanishing_symbol → lit ∈ c → 1 ≤ Z.abs lit ≤ 6).
Proof.
  split; [|split].
  - apply returns_None_inv, (DPLL_all_check o _ 2 extra); [done|].
    vm_compute; reflexivity.
  - apply raises_KeyError_inv, (DPLL_all_check o _ 3 extra); [done|].
    vm_compute; reflexivity.
  - intros c lit Hc Hlit.
    assert (forallb (forallb (λ l, (1 <=? Z.abs l) && (Z.abs l <=? 6)))
              (elements vanishing_symbol) = true) as Hall
      by (vm_compute; reflexivity).
    rewrite forallb_forall in Hall.
    apply elem_of_elements, list_elem_of_In, Hall in Hc.
    rewrite forallb_forall in Hc. apply list_elem_of_In, Hc in Hlit. lia.
Qed.

(** One call of [DPLL] that reaches the branching loop. *)
Lemma DPLL_branch (o : IterOrder) fuel clauses symbols model
    clauses' symbols' model' :
  clauses ≠ ∅ →
  bool_decide (model ≠ ∅) && @all_clauses_hold elements_order clauses model
    = false →
  match symbols with
  | Some ss => bool_decide (size model = size ss)
  | None => false
  end = false →
  unit_choices clauses model = [] →
  @pure_literal elements_order clauses symbols model
    = Ret (Some (clauses', symbols'), model') →
  clauses' ≠ ∅ →
  @DPLL o (S fuel) clauses symbols model =
    match iter_symbols (symbols' ∖ dom model') with
    | [] => Ret (PyNone, clauses, model')
    | s :: _ =>
      match DPLL fuel clauses' (Some symbols') (<[s := true]> model') with
      | Ret (result, clauses1, model1) =>
        if truthy result
        then Ret (PyTuple true (Some model1), clauses, model1)
        else
          match DPLL fuel clauses1 (Some symbols') (<[s := false]> model1) with
          | Ret (result2, _, model2) => Ret (result2, clauses, model2)
          | Raise e => Raise e
          | OutOfFuel => OutOfFuel
          end
      | Raise e => Raise e
      | OutOfFuel => OutOfFuel
      end
    end.
Proof.
  intros Hne Hsat Hsize Hunits Hpure Hne'. cbn [DPLL].
  rewrite bool_decide_eq_false_2 by done.
  rewrite (all_clauses_hold_order o elements_order), Hsat, Hsize.
  destruct (remove_unit_clauses_cases clauses model)
    as [[-> _]|(c & u & Hcu & _)]; [|by rewrite Hunits in Hcu; inversion Hcu].
  rewrite (pure_literal_order o elements_order), Hpure.
  by rewrite bool_decide_eq_false_2 by done.
Qed.

Lemma iter_symbols_head `{IterOrder} (X : gset Z) s rest :
  iter_symbols X = s :: rest → s ∈ elements X.
Proof.
  intros Hs. apply elem_of_elements, iter_symbols_elem. rewrite Hs. set_solver.
Qed.

(** C3 (the code departs from it): on the four clauses over two variables,
    whatever the iteration order, the first call reaches the branching loop
    with an empty model; the recursive call with the chosen variable set to
    true returns the pair [(False, model)]; the caller then returns
    [(True, model)] with that same model, and makes no second call. *)
Theorem DPLL_branch_turns_False_into_True (o : IterOrder) (extra : nat) :
  ∃ s rest m1 clauses1,
    @remove_unit_clauses o four_clauses ∅ = (false, four_clauses, ∅) ∧
    @pure_literal o four_clauses None ∅
      = Ret (Some (four_clauses, {[1; 2]}), ∅) ∧
    iter_symbols ({[1; 2]} ∖ dom (∅ : gmap Z bool)) = s :: rest ∧
    @DPLL o (2 + extra) four_clauses (Some {[1; 2]}) (<[s := true]> ∅)
      = Ret (PyTuple false (Some m1), clauses1, m1) ∧
    @DPLL o (3 + extra) four_clauses None ∅
      = Ret (PyTuple true (Some m1), four_clauses, m1).
Proof.
  assert (Hunits : unit_choices four_clauses ∅ = []) by (vm_compute; reflexivity).
  assert (Hpure : @pure_literal elements_order four_clauses None ∅
                  = Ret (Some (four_clauses, {[1; 2]}), ∅))
    by (vm_compute; reflexivity).
  assert (Hne : four_clauses ≠ ∅) by (by vm_compute).
  destruct (iter_symbols ({[1; 2]} ∖ dom (∅ : gmap Z bool)))
    as [|s rest] eqn:Hs.
  { apply iter_symbols_nil in Hs. vm_compute in Hs. discriminate Hs. }
  assert (Hin : s ∈ elements (({[1; 2]} : gset Z) ∖ dom (∅ : gmap Z bool)))
    by (by eapply iter_symbols_head).
  assert (Hcases : s = 1 ∨ s = 2).
  { rewrite elem_of_elements, elem_of_difference, elem_of_union,
      !elem_of_singleton in Hin. tauto. }
  assert (Hinner : ∃ m1 clauses1,
    @DPLL o (2 + extra) four_clauses (Some {[1; 2]}) (<[s := true]> ∅)
      = Ret (PyTuple false (Some m1), clauses1, m1)).
  { apply returns_false_with_model_inv, (DPLL_all_check o _ 2 extra); [done|].
    destruct Hcases as [-> | ->]; vm_compute; reflexivity. }
  destruct Hinner as (m1 & clauses1 & Hinner).
  exists s, rest, m1, clauses1.
  split; [|split; [|split; [reflexivity|split; [exact Hinner|]]]].
  - destruct (remove_unit_clauses_cases four_clauses ∅)
      as [[-> _]|(c & u & Hcu & _)]; [done|].
    rewrite Hunits in Hcu. inversion Hcu.
  - by rewrite (pure_literal_order o elements_order).
  - change (3 + extra)%nat with (S (2 + extra)).
    assert (Hsat : bool_decide ((∅ : gmap Z bool) ≠ ∅)
                   && @all_clauses_hold elements_order four_clauses ∅ = false)
      by (vm_compute; reflexivity).
    rewrite (DPLL_branch o _ four_clauses None ∅ _ _ _ Hne Hsat eq_refl
               Hunits Hpure Hne).
    by rewrite Hs, Hinner.
Qed.

(** C9 (the code departs from it): in one process, whatever the iteration
    order, a first call [DPLL(first_formula)] returns and leaves variable 1
    set in the default dictionary; a second call [DPLL(second_formula)] then
    returns [None], while the same call in a new process returns [True] with
    a model. *)
Theorem DPLL_default_model_is_shared (o : IterOrder) (extra : nat) :
  ∃ p1,
    (∃ clauses, @DPLL_default o (2 + extra) first_formula fresh_process
                = Ret (PyTuple true None, clauses, p1)) ∧
    DPLL_default_model p1 = {[1 := true]} ∧
    (∃ clauses p, @DPLL_default o (2 + extra) second_formula p1
                  = Ret (PyNone, clauses, p)) ∧
    (∃ clauses p, @DPLL_default o (2 + extra) second_formula fresh_process
                  = Ret (PyTuple true (Some {[1 := false]}), clauses, p)).
Proof.
  exists (Process {[1 := true]}). unfold DPLL_default, fresh_process.
  cbn [DPLL_default_model].
  split; [|split; [done|split]].
  - assert (returns_true_without_model_leaving {[1 := true]}
              (@DPLL o (2 + extra) first_formula None ∅) = true) as Hcheck.
    { apply (DPLL_all_check o _ 2 extra); [done|]. vm_compute; reflexivity. }
    destruct (@DPLL o (2 + extra) first_formula None ∅)
      as [[[[|[] [m|]] clauses] m']| |]; simpl in Hcheck; try done.
    apply bool_decide_eq_true in Hcheck as ->. by exists clauses.
  - destruct (returns_None_inv
                (@DPLL o (2 + extra) second_formula None {[1 := true]}))
      as (clauses & m & ->); [|by eexists _, _].
    apply (DPLL_all_check o _ 2 extra); [done|]. vm_compute; reflexivity.
  - assert (returns_true_with {[1 := false]}
              (@DPLL o (2 + extra) second_formula None ∅) = true) as Hcheck.
    { apply (DPLL_all_check o _ 2 extra); [done|]. vm_compute; reflexivity. }
    destruct (@DPLL o (2 + extra) second_formula None ∅)
      as [[[[|[] [m|]] clauses] m']| |]; simpl in Hcheck; try done.
    apply bool_decide_eq_true in Hcheck as ->. by eexists _, _.
Qed.

(** ** The claims about [pure_literal] *)

(** A variable of a clause set occurs in every larger clause set. *)
Lemma occurs_subseteq (v : Z) (cnf cnf' : gset (list Z)) :
  cnf ⊆ cnf' → occurs v cnf → occurs v cnf'.
Proof.
  intros Hsub (c & l & Hc & Hl & Habs). exists c, l. split; [|done].
  by apply Hsub.
Qed.

(** C7 (the code departs from it): [pure_literal] raises [KeyError] on what
    it returned itself.  Whatever the iteration order, on the six clauses
    of [vanishing_symbol] with no symbol domain it returns the four clauses
    over variables 4 and 5 together with the domain [{3, 4, 5}], in which
    variable 3 no longer occurs in a clause.  Called again with that domain
    on these clauses, or on what unit steps leave of them, with any
    dictionary, it raises [KeyError] where its description has it return; and
    this is the call [DPLL] makes: each recursive call after the first pass,
    and so the search on the six clauses, ends in that [KeyError]. *)
Theorem pure_literal_raises_on_returned_domain (o : IterOrder) (extra : nat) :
  @pure_literal o vanishing_symbol None ∅
    = Ret (Some (surviving_clauses, surviving_symbols), pure_model) ∧
  (∀ clauses model,
     clauses ≠ ∅ → clauses ⊆ surviving_clauses →
     @pure_literal o clauses (Some surviving_symbols) model = Raise KeyError ∧
     ¬ @pure_literal_described o clauses (Some surviving_symbols) model) ∧
  (∀ s, s ∈ surviving_symbols →
     @DPLL o (2 + extra) surviving_clauses (Some surviving_symbols)
       (<[s := true]> pure_model) = Raise KeyError) ∧
  @DPLL o (3 + extra) vanishing_symbol None ∅ = Raise KeyError.
Proof.
  split; [|split; [|split]].
  - rewrite (pure_literal_order o elements_order). vm_compute; reflexivity.
  - intros clauses model Hne Hsub.
    assert (¬ occurs 3 surviving_clauses) as Hgone by signs.
    assert (¬ occurs 3 clauses) as Hnot.
    { intros Hocc. by apply Hgone, (occurs_subseteq _ _ _ Hsub). }
    assert (@pure_literal o clauses (Some surviving_symbols) model
            = Raise KeyError) as Hraise.
    { apply (pure_literal_KeyError o clauses _ model 3); [done| |done].
      split; [vm_compute; reflexivity|].
      intros b b' Hb. exfalso. by apply Hnot, (occurs_as_occurs _ b). }
    split; [done|].
    intros [_ Hdesc]. destruct (Hdesc Hne) as (cs & ss & model' & Hrun & _).
    rewrite Hraise in Hrun. discriminate Hrun.
  - intros s Hs.
    assert (s = 3 ∨ s = 4 ∨ s = 5) as [->|[->| ->]].
    { unfold surviving_symbols in Hs.
      rewrite !elem_of_union, !elem_of_singleton in Hs. tauto. }
    all: apply raises_KeyError_inv, (DPLL_all_check o _ 2 extra); [done|];
         vm_compute; reflexivity.
  - apply raises_KeyError_inv, (DPLL_all_check o _ 3 extra); [done|].
    vm_compute; reflexivity.
Qed.



(** ** The claims about the loader *)

(** C5 (the code departs from it): with the header [1 20], the line [10 20]
    ends a clause although its last token is [20], and the clause read is
    [(10, 2)]: the final zero of the literal 20 is stripped.  The line
    [3 0] that was meant to close the clause is never part of it. *)
Theorem read_clause_strips_digits_of_literal :
  read_clause (tail fused_file) 20 [] = GYield [10; 2] (GYield [3] GStop) ∧
  parse_file fused_file = Ret (Loaded {[ [10; 2] ]} 1 20 [Reading 1 20]).
Proof. split; vm_compute; reflexivity. Qed.

Lemma read_clause_within file nb_lit : ∀ buffer c,
  c ∈ yields (read_clause file nb_lit buffer) → within nb_lit c.
Proof.
  induction file as [|line file IH]; intros buffer c; cbn [read_clause].
  - intros Hc. inversion Hc.
  - destruct (strip (list_ascii_of_string line)) as [|a stripped] eqn:Hstrip.
    { apply IH. }
    destruct (endswith_zero (a :: stripped)); [|apply IH].
    destruct (ints _) as [current_clause|]; [|intros Hc; inversion Hc].
    destruct (existsb _ current_clause) eqn:Hcheck; [intros Hc; inversion Hc|].
    cbn [yields]. intros Hc. apply elem_of_cons in Hc as [->|Hc]; [|by eapply IH].
    intros lit Hlit.
    destruct (Z.leb_spec (Z.abs lit) nb_lit) as [Hle|Hgt]; [done|].
    assert (existsb (λ literal, nb_lit <? Z.abs literal) current_clause = true)
      as Habs; [|congruence].
    apply existsb_exists. exists lit. split; [by apply list_elem_of_In|].
    by apply Z.ltb_lt.
Qed.

Lemma collect_within g nb_lit : ∀ nb_clauses cnf cnf',
  (∀ c, c ∈ yields g → within nb_lit c) →
  (∀ c, c ∈ cnf → within nb_lit c) →
  collect g nb_clauses cnf = Ret cnf' →
  ∀ c, c ∈ cnf' → within nb_lit c.
Proof.
  induction g as [| |clause g IH]; intros nb_clauses cnf cnf' Hg Hcnf;
    cbn [collect].
  - by intros [= <-].
  - done.
  - assert (∀ c, c ∈ cnf ∪ {[clause]} → within nb_lit c) as Hnew.
    { intros c Hc. apply elem_of_union in Hc as [Hc|Hc]; [by apply Hcnf|].
      apply elem_of_singleton in Hc as ->. apply Hg. cbn [yields]. set_solver. }
    destruct (nb_clauses <=? _).
    + by intros [= <-].
    + apply IH; [|done]. intros c Hc. apply Hg. cbn [yields]. set_solver.
Qed.

Lemma collect_Raise g e : ∀ nb_clauses cnf,
  ending g = Some e →
  Z.of_nat (size (cnf ∪ list_to_set (yields g))) < nb_clauses →
  collect g nb_clauses cnf = Raise e.
Proof.
  induction g as [| |clause g IH]; intros nb_clauses cnf; cbn [ending collect yields].
  - done.
  - by intros [= ->].
  - intros Hend Hsize. rewrite list_to_set_cons in Hsize.
    assert (cnf ∪ ({[clause]} ∪ list_to_set (yields g))
            = (cnf ∪ {[clause]}) ∪ list_to_set (yields g)) as Heq
      by (by rewrite (assoc_L (∪))).
    rewrite Heq in Hsize.
    assert (size (cnf ∪ {[clause]})
            ≤ size ((cnf ∪ {[clause]}) ∪ list_to_set (yields g)))%nat as Hle
      by (apply subseteq_size, union_subseteq_l).
    destruct (Z.leb_spec nb_clauses (Z.of_nat (size (cnf ∪ {[clause]}))));
      [lia|].
    by apply IH.
Qed.

(** C6, as written, fails: with the header [1 1], the line [0 1 0] is
    loaded as the clause [(0, 1)], whose first literal is 0. *)
Lemma parse_file_loads_literal_zero :
  ∃ l, parse_file zero_literal_file = Ret l ∧
       loaded_cnf l = {[ [0; 1] ]} ∧ loaded_nb_lit l = 1 ∧
       ¬ literals_in_range l.
Proof.
  exists (Loaded {[ [0; 1] ]} 1 1 [Reading 1 1]).
  split; [vm_compute; reflexivity|]. split; [done|]. split; [done|].
  intros Hrange. specialize (Hrange [0; 1] 0). cbn in Hrange.
  assert (1 ≤ Z.abs 0 ≤ 1) as Habs; [|cbn in Habs; lia].
  apply Hrange; [by apply elem_of_singleton|]. apply list_elem_of_here.
Qed.

(** C6 (amended): a line that completes a clause with a literal whose
    absolute value exceeds [nb_lit] makes [read_clause] raise the
    invalid-clause error there, with nothing yielded for that clause; when
    the loop of [parse_file] gets to that point before it has collected
    [nb_clauses] distinct clauses, [parse_file] raises that error and returns
    no formula; and in every formula that [parse_file] returns, every literal
    of every clause has absolute value at most [nb_lit] (a literal 0 can
    occur). *)
Theorem parse_file_checks_upper_bound :
  (∀ line file' nb_lit buffer current_clause literal,
     strip (list_ascii_of_string line) ≠ [] →
     endswith_zero (strip (list_ascii_of_string line)) = true →
     ints (split (rstrip_zeros (buffer ++ strip (list_ascii_of_string line))))
       = Some current_clause →
     literal ∈ current_clause → nb_lit < Z.abs literal →
     read_clause (line :: file') nb_lit buffer
       = GRaise ValueError_invalid_clause) ∧
  (∀ file nb_clauses nb_lit,
     read_header file = Ret (nb_clauses, nb_lit) →
     ending (read_clause (tail file) nb_lit [])
       = Some ValueError_invalid_clause →
     Z.of_nat (size (list_to_set (yields (read_clause (tail file) nb_lit []))
                     : gset (list Z))) < nb_clauses →
     parse_file file = Raise ValueError_invalid_clause) ∧
  (∀ file l,
     parse_file file = Ret l →
     ∀ c lit, c ∈ loaded_cnf l → lit ∈ c → Z.abs lit ≤ loaded_nb_lit l).
Proof.
  split; [|split].
  - intros line file' nb_lit buffer current_clause literal
      Hstrip Hend Hints Hlit Hbig.
    cbn [read_clause].
    destruct (strip (list_ascii_of_string line)) as [|a stripped]; [done|].
    rewrite Hend, Hints.
    assert (existsb (λ literal, nb_lit <? Z.abs literal) current_clause = true)
      as ->; [|done].
    apply existsb_exists. exists literal.
    split; [by apply list_elem_of_In|]. by apply Z.ltb_lt.
  - intros file nb_clauses nb_lit Hheader Hend Hsize.
    unfold parse_file. rewrite Hheader.
    rewrite (collect_Raise _ ValueError_invalid_clause); [done|done|].
    by rewrite (left_id_L ∅ (∪)).
  - intros file l. unfold parse_file.
    destruct (read_header file) as [[nb_clauses nb_lit]| |]; [|done|done].
    destruct (collect _ nb_clauses ∅) as [cnf| |] eqn:Hcollect; [|done|done].
    intros [= <-] c lit Hc Hlit. cbn [loaded_cnf loaded_nb_lit] in *.
    eapply (collect_within _ nb_lit nb_clauses ∅ cnf);
      [| |exact Hcollect|exact Hc|exact Hlit].
    + intros c'. apply read_clause_within.
    + intros c' Hc'. by apply not_elem_of_empty in Hc'.
Qed.

(** The amended claim on two files: with the header [2 3], the clause
    [5 0] after [1 -2 0] makes the load fail with the invalid-clause error;
    and the clause loaded from [0 1 0] under the bound 1 stays within it. *)
Lemma parse_file_checks_upper_bound_witness :
  parse_file out_of_range_file = Raise ValueError_invalid_clause ∧
  ∀ c lit, c ∈ ({[ [0; 1] ]} : gset (list Z)) → lit ∈ c → Z.abs lit ≤ 1.
Proof.
  destruct parse_file_checks_upper_bound as (_ & Hraise & Hbound).
  split.
  - apply (Hraise out_of_range_file 2 3).
    + vm_compute; reflexivity.
    + vm_compute; reflexivity.
    + vm_compute; reflexivity.
  - pose proof (Hbound zero_literal_file
                  (Loaded {[ [0; 1] ]} 1 1 [Reading 1 1])) as Hzero.
    cbn [loaded_cnf loaded_nb_lit] in Hzero. apply Hzero.
    vm_compute; reflexivity.
Defined.

(** C8, as written, fails: the clauses [1 2 0] and [2 1 0] have the same
    literals, and with the header [2 2] the loaded formula has two
    clauses and no warning is printed. *)
Lemma parse_file_keeps_reordered_clause :
  read_clause (tail reordered_file) 2 []
    = GYield [1; 2] (GYield [2; 1] GStop) ∧
  same_literals [1; 2] [2; 1] ∧
  parse_file reordered_file
    = Ret (Loaded {[ [1; 2]; [2; 1] ]} 2 2 [Reading 2 2]) ∧
  size ({[ [1; 2]; [2; 1] ]} : gset (list Z)) = 2%nat.
Proof.
  split; [vm_compute; reflexivity|]. split; [|split].
  - intros lit. rewrite !elem_of_cons. set_solver.
  - vm_compute; reflexivity.
  - vm_compute; reflexivity.
Qed.

(** C8 (amended): a clause is the sequence of its literals, and two clauses
    are one when they are the same sequence.  For every source with
    declared count 2 whose clause text yields the same sequence twice and
    nothing else, the loaded formula has that one clause, and the warning
    that fewer clauses were found than declared is printed. *)
Theorem parse_file_collapses_repeated_clause file nb_lit (c : list Z) :
  read_header file = Ret (2, nb_lit) →
  read_clause (tail file) nb_lit [] = GYield c (GYield c GStop) →
  parse_file file = Ret (Loaded {[c]} 2 nb_lit [Reading 2 nb_lit; Warning 1 2]) ∧
  size ({[c]} : gset (list Z)) = 1%nat.
Proof.
  intros Hheader Hgen. unfold parse_file. rewrite Hheader, Hgen.
  cbn [collect].
  assert ((∅ : gset (list Z)) ∪ {[c]} = {[c]}) as -> by (by rewrite (left_id_L ∅ (∪))).
  assert (({[c]} : gset (list Z)) ∪ {[c]} = {[c]}) as -> by (by rewrite (idemp_L (∪))).
  rewrite size_singleton.
  change (2 <=? Z.of_nat 1) with false. cbv beta iota.
  rewrite size_singleton. split; reflexivity.
Qed.

(** The amended claim on the file that holds [1 2 0] twice. *)
Lemma parse_file_collapses_repeated_clause_witness :
  parse_file repeated_file
    = Ret (Loaded {[ [1; 2] ]} 2 2 [Reading 2 2; Warning 1 2]) ∧
  size ({[ [1; 2] ]} : gset (list Z)) = 1%nat.
Proof.
  apply (parse_file_collapses_repeated_clause repeated_file 2 [1; 2]).
  - vm_compute; reflexivity.
  - vm_compute; reflexivity.
Defined.

(** * Further properties of the code *)

(** ** [remove_unit_clauses] *)

Lemma unit_in_cons_assigned model l rest u :
  assigned model l → unit_in model (l :: rest) u ↔ unit_in model rest u.
Proof.
  intros Hl. split.
  - intros (pre & post & Hc & Hu & Hpre & Hpost).
    destruct pre as [|l' pre]; simpl in Hc; injection Hc as -> ->.
    + destruct Hl as [b Hb]. congruence.
    + exists pre, post. apply Forall_cons in Hpre as [_ Hpre]. done.
  - intros (pre & post & -> & Hu & Hpre & Hpost).
    exists (l :: pre), post. split; [done|]. split; [done|].
    split; [by apply Forall_cons|done].
Qed.

Lemma unit_in_cons_unassigned model l rest u :
  model !! Z.abs l = None →
  unit_in model (l :: rest) u ↔ u = l ∧ Forall (assigned model) rest.
Proof.
  intros Hl. split.
  - intros (pre & post & Hc & Hu & Hpre & Hpost).
    destruct pre as [|l' pre]; simpl in Hc; injection Hc as -> ->.
    + done.
    + apply Forall_cons in Hpre as [[b Hb] _]. congruence.
  - intros [-> Hrest]. exists [], rest. split; [done|]. split; [done|].
    split; [apply Forall_nil_2|done].
Qed.

Lemma scan_clause_unit model c : ∀ acc u,
  scan_clause model c acc = Finished (Some u) ↔
  (acc = Some u ∧ Forall (assigned model) c) ∨
  (acc = None ∧ unit_in model c u).
Proof.
  induction c as [|l rest IH]; intros acc u; cbn [scan_clause].
  - split.
    + intros [= ->]. left. split; [done|apply Forall_nil_2].
    + intros [[-> _]|[_ (pre & post & Hc & _)]]; [done|].
      by destruct pre.
  - destruct (model !! Z.abs l) as [b|] eqn:Hl.
    + assert (assigned model l) as Hassigned by (by exists b).
      rewrite IH, Forall_cons, (unit_in_cons_assigned model l rest u Hassigned).
      tauto.
    + rewrite (unit_in_cons_unassigned model l rest u Hl).
      destruct acc as [a|].
      * split; [done|].
        intros [[_ Hall]|[Hacc _]]; [|done].
        apply Forall_cons in Hall as [[b Hb] _]. congruence.
      * rewrite IH. split.
        -- intros [[[= ->] Hall]|[Hacc _]]; [|done]. right. done.
        -- intros [[Hacc _]|[_ [-> Hall]]]; [done|]. left. done.
Qed.

Lemma unit_of_unit_in model c cu :
  unit_of model c = Some cu ↔ cu.1 = c ∧ unit_in model c cu.2.
Proof.
  unfold unit_of. destruct cu as [c' u]. cbn [fst snd].
  destruct (scan_clause model c None) as [|[u'|]] eqn:Hscan.
  - split; [done|]. intros [_ Hu].
    assert (scan_clause model c None = Finished (Some u)) as Heq
      by (apply scan_clause_unit; by right).
    congruence.
  - apply scan_clause_unit in Hscan as [[Hacc _]|[_ Hu']]; [done|]. split.
    + by intros [= <- <-].
    + intros [-> Hu].
      assert (scan_clause model c None = Finished (Some u)) as Heq
        by (apply scan_clause_unit; by right).
      assert (scan_clause model c None = Finished (Some u')) as Heq'
        by (apply scan_clause_unit; by right).
      congruence.
  - split; [done|]. intros [_ Hu].
    assert (scan_clause model c None = Finished (Some u)) as Heq
      by (apply scan_clause_unit; by right).
    congruence.
Qed.

Lemma remove_unit_clauses_unit_or_none (o : IterOrder) clauses model :
  (∃ c u, c ∈ clauses ∧ unit_in model c u ∧
          @remove_unit_clauses o clauses model
            = (true, clauses ∖ {[c]}, <[Z.abs u := 0 <? u]> model)) ∨
  ((∀ c u, c ∈ clauses → ¬ unit_in model c u) ∧
   @remove_unit_clauses o clauses model = (false, clauses, model)).
Proof.
  unfold remove_unit_clauses.
  destruct (remove_unit_loop_cases (iter_clauses clauses) clauses model)
    as [[Hrun Hno]|(c & u & Hc & Hu & Hrun)].
  - right. split; [|done]. intros c u Hc Hu.
    apply iter_clauses_elem in Hc. specialize (Hno c Hc).
    assert (unit_of model c = Some (c, u)) as Hsome
      by (by apply unit_of_unit_in).
    congruence.
  - left. exists c, u. split; [by apply iter_clauses_elem in Hc|].
    split; [|done]. by apply (unit_of_unit_in model c (c, u)).
Qed.

(** X1: [remove_unit_clauses] either finds a clause of the set with exactly
    one literal occurrence over a variable without a value, removes that
    clause, sets that variable so that the literal is true and reports
    [True]; or no clause of the set has exactly one such occurrence, and it
    reports [False] and changes nothing.  The values in the dictionary play
    no part: a clause whose literals are all assigned is passed over, be it
    satisfied or falsified. *)
Theorem remove_unit_clauses_spec (o : IterOrder) clauses model :
  (∃ c u, c ∈ clauses ∧ unit_in model c u ∧
          @remove_unit_clauses o clauses model
            = (true, clauses ∖ {[c]}, <[Z.abs u := 0 <? u]> model)) ∨
  ((∀ c u, c ∈ clauses → ¬ unit_in model c u) ∧
   @remove_unit_clauses o clauses model = (false, clauses, model)).
Proof. apply remove_unit_clauses_unit_or_none. Qed.

(** ** [pure_literal] *)

Lemma pure_var_dec symbols cnf v :
  pure_var symbols cnf v ∨ ¬ pure_var symbols cnf v.
Proof.
  unfold pure_var, candidate.
  destruct (single_signedb v cnf) eqn:Hsingle.
  - apply single_signed_spec in Hsingle.
    destruct (established symbols).
    + destruct (decide (v ∈ default ∅ symbols)); tauto.
    + destruct (occursb v cnf) eqn:Hocc.
      * apply occurs_spec in Hocc. tauto.
      * right. intros [Hocc' _]. apply occurs_spec in Hocc'. congruence.
  - right. intros [_ Hs]. apply single_signed_spec in Hs. congruence.
Qed.

Lemma assign_pure_only_KeyError todo pol : ∀ model e,
  assign_pure todo pol model = Raise e → e = KeyError.
Proof.
  induction todo as [|lit todo IH]; intros model e; cbn [assign_pure].
  - done.
  - destruct (pol !! lit); [apply IH|]. by intros [= <-].
Qed.

Lemma list_exists_or_all {A} (P : A → Prop) (l : list A) :
  (∀ x, P x ∨ ¬ P x) →
  (∃ x, x ∈ l ∧ P x) ∨ (∀ x, x ∈ l → ¬ P x).
Proof.
  intros Hdec. induction l as [|a l IH].
  - right. intros x Hx. inversion Hx.
  - destruct (Hdec a) as [Ha|Ha].
    + left. exists a. split; [apply list_elem_of_here|done].
    + destruct IH as [(x & Hx & HP)|Hall].
      * left. exists x. split; [by apply list_elem_of_further|done].
      * right. intros x Hx. apply elem_of_cons in Hx as [->|Hx]; [done|].
        by apply Hall.
Qed.


Lemma pure_literal_only_KeyError (o : IterOrder) cnf symbols model e :
  @pure_literal o cnf symbols model = Raise e → e = KeyError.
Proof.
  unfold pure_literal. case_bool_decide; [done|].
  destruct (assign_pure _ _ _) as [m|e'|] eqn:Hassign; [done| |done].
  intros [= <-]. by eapply assign_pure_only_KeyError.
Qed.

(** X3: [pure_literal] raises exactly when the clause set is not empty, a
    non-empty symbol domain is given, and some variable of that domain does
    not occur in the clause set; the exception is then [KeyError].  With
    [symbols] left to [None], or empty, it always returns. *)
Theorem pure_literal_raises_iff (o : IterOrder) cnf symbols model e :
  @pure_literal o cnf symbols model = Raise e ↔
  e = KeyError ∧ cnf ≠ ∅ ∧ established symbols = true ∧
  ∃ v, v ∈ default ∅ symbols ∧ ¬ occurs v cnf.
Proof.
  split.
  - intros Hraise.
    assert (Hne : cnf ≠ ∅).
    { intros ->. unfold pure_literal in Hraise.
      by rewrite bool_decide_eq_true_2 in Hraise. }
    assert (He : e = KeyError).
    { unfold pure_literal in Hraise.
      rewrite bool_decide_eq_false_2 in Hraise by done.
      destruct (assign_pure _ _ _) as [m|e'|] eqn:Hassign; [done| |done].
      injection Hraise as <-. by eapply assign_pure_only_KeyError. }
    split; [done|]. split; [done|].
    destruct (established symbols) eqn:Hest.
    + split; [done|].
      destruct (decide (Forall (λ v, occursb v cnf = true)
                          (elements (default ∅ symbols)))) as [Hall|Hex].
      * rewrite Forall_forall in Hall.
        destruct (pure_literal_total o cnf symbols model Hne) as (r & m & Hret);
          [|congruence].
        intros v [Hcand _]. unfold candidate in Hcand. rewrite Hest in Hcand.
        apply occurs_spec, Hall. by apply elem_of_elements.
      * apply not_Forall_Exists in Hex; [|apply _].
        apply Exists_exists in Hex as (v & Hv & Hocc).
        exists v. split; [by apply elem_of_elements|].
        intros Hv'. by apply occurs_spec in Hv'.
    + destruct (pure_literal_total o cnf symbols model Hne) as (r & m & Hret);
        [|congruence].
      intros v [Hcand _]. unfold candidate in Hcand. by rewrite Hest in Hcand.
  - intros (-> & Hne & Hest & v & Hv & Hocc).
    apply (pure_literal_KeyError o cnf symbols model v); [done| |done].
    split.
    + unfold candidate. by rewrite Hest.
    + intros b b' Hb. exfalso. by apply Hocc, (occurs_as_occurs v b).
Qed.

(** X4: when [pure_literal] returns a clause set, the clauses it returns
    are clauses it was given; every clause it leaves out has a literal that
    is true in the dictionary as it leaves it; and the dictionary keeps all
    its entries but those of the variables of the clauses left out. *)
Theorem pure_literal_removes_true_clauses (o : IterOrder) cnf symbols model
    cs ss model' :
  @pure_literal o cnf symbols model = Ret (Some (cs, ss), model') →
  cs ⊆ cnf ∧
  (∀ c, c ∈ cnf → c ∉ cs → clause_true model' c = true) ∧
  (∀ v, (∀ c, c ∈ cnf → c ∉ cs → v ∉ Z.abs <$> c) →
        model' !! v = model !! v).
Proof.
  intros Hrun.
  assert (Hne : cnf ≠ ∅).
  { intros ->. unfold pure_literal in Hrun.
    by rewrite bool_decide_eq_true_2 in Hrun. }
  destruct (pure_literal_Ret o cnf symbols model _ model' Hne Hrun)
    as (cs' & ss' & [= <- <-] & Hcs & Hss & Hocc & Hset & Hkeep).
  assert (Hout : ∀ c, c ∈ cnf → c ∉ cs →
                 ∃ l, l ∈ c ∧ pure_var symbols cnf (Z.abs l)).
  { intros c Hc Hnot.
    destruct (list_exists_or_all (λ l, pure_var symbols cnf (Z.abs l)) c)
      as [Hex|Hall]; [intros l; apply pure_var_dec|done|].
    exfalso. apply Hnot, Hcs. by split. }
  split; [|split].
  - intros c Hc. by apply Hcs in Hc as [Hc _].
  - intros c Hc Hnot. destruct (Hout c Hc Hnot) as (l & Hl & Hpure).
    unfold clause_true. apply existsb_exists. exists l.
    split; [by apply list_elem_of_In|].
    unfold lit_true. apply bool_decide_eq_true. apply Hset; [done|].
    by exists c, l.
  - intros v Hv. apply Hkeep. intros Hpure.
    destruct (occurs_occurs_as v cnf (Hocc v Hpure))
      as (b & c & l & Hc & Hl & Habs & _).
    apply (Hv c Hc).
    + intros Hin. apply Hcs in Hin as [_ Hin]. apply (Hin l Hl). by rewrite Habs.
    + apply list_elem_of_fmap. by exists l.
Qed.

(** The same on four clauses with no symbol domain: the clauses with the
    pure variables 1 and 3 are left out, and both are true afterwards. *)
Lemma pure_literal_removes_true_clauses_witness :
  ∃ cs ss model',
    @pure_literal elements_order three_clauses None ∅
      = Ret (Some (cs, ss), model') ∧
    cs ⊆ three_clauses ∧
    (∀ c, c ∈ three_clauses → c ∉ cs → clause_true model' c = true).
Proof.
  destruct (@pure_literal elements_order three_clauses None ∅)
    as [[[[cs ss]|] model']| |] eqn:Hrun; try (vm_compute in Hrun; discriminate Hrun).
  exists cs, ss, model'. split; [reflexivity|].
  destruct (pure_literal_removes_true_clauses elements_order three_clauses
              None ∅ cs ss model' Hrun) as (Hsub & Htrue & _).
  split; [exact Hsub|exact Htrue].
Defined.

(** ** [DPLL]: what a call does to the objects it is given *)

Lemma elem_of_variables v clauses : v ∈ variables clauses ↔ occurs v clauses.
Proof.
  unfold variables. rewrite elem_of_list_to_set, list_elem_of_fmap.
  rewrite (occurs_todo clauses (elements clauses))
    by (intros c; apply elem_of_elements).
  split; intros (l & H1 & H2); exists l; done.
Qed.

Lemma variables_mono clauses1 clauses :
  clauses1 ⊆ clauses → variables clauses1 ⊆ variables clauses.
Proof.
  intros Hsub v. rewrite !elem_of_variables.
  intros (c & l & Hc & Hl & Hv). exists c, l. split; [by apply Hsub|done].
Qed.

(** What [pure_literal] returns, in terms of sets. *)
Lemma pure_literal_Ret_sets (o : IterOrder) cnf symbols model cs ss model' :
  @pure_literal o cnf symbols model = Ret (Some (cs, ss), model') →
  cs ⊆ cnf ∧ ss ⊆ variables cnf ∪ default ∅ symbols ∧
  dom model ⊆ dom model' ∧
  dom model' ⊆ dom model ∪ (variables cnf ∪ default ∅ symbols).
Proof.
  intros Hrun.
  assert (Hne : cnf ≠ ∅).
  { intros ->. unfold pure_literal in Hrun.
    by rewrite bool_decide_eq_true_2 in Hrun. }
  destruct (pure_literal_Ret o cnf symbols model _ model' Hne Hrun)
    as (cs' & ss' & [= <- <-] & Hcs & Hss & Hocc & Hset & Hkeep).
  assert (Hcand : ∀ v, candidate symbols cnf v →
                       v ∈ variables cnf ∪ default ∅ symbols).
  { intros v Hv. unfold candidate in Hv. apply elem_of_union.
    destruct (established symbols); [by right|].
    left. by apply elem_of_variables. }
  split; [|split; [|split]].
  - intros c Hc. by apply Hcs in Hc as [Hc _].
  - intros v Hv. apply Hss in Hv as [Hv _]. by apply Hcand.
  - intros k Hk. apply elem_of_dom. apply elem_of_dom in Hk.
    destruct (pure_var_dec symbols cnf k) as [Hpure|Hnot].
    + destruct (occurs_occurs_as k cnf (Hocc k Hpure)) as [b Hb].
      exists b. by apply Hset.
    + by rewrite Hkeep.
  - intros k Hk. apply elem_of_union.
    destruct (pure_var_dec symbols cnf k) as [[Hpure _]|Hnot].
    + right. by apply Hcand.
    + left. apply elem_of_dom. apply elem_of_dom in Hk. by rewrite <- Hkeep.
Qed.

Lemma pure_literal_None (o : IterOrder) cnf symbols model model' :
  @pure_literal o cnf symbols model = Ret (None, model') →
  cnf = ∅ ∧ model' = model.
Proof.
  unfold pure_literal. case_bool_decide as Hempty.
  - by intros [= <-].
  - by destruct (assign_pure _ _ _).
Qed.

Lemma pure_literal_fuel (o : IterOrder) cnf symbols model :
  @pure_literal o cnf symbols model ≠ OutOfFuel.
Proof.
  unfold pure_literal. case_bool_decide; [done|].
  assert (∀ todo pol m, assign_pure todo pol m ≠ OutOfFuel) as Hassign.
  { induction todo as [|lit todo IH]; intros pol m; cbn [assign_pure];
      [done|]. destruct (pol !! lit); [apply IH|done]. }
  destruct (assign_pure _ _ _) eqn:Hrun; [done|done|].
  by apply Hassign in Hrun.
Qed.

Lemma DPLL_state (o : IterOrder) fuel :
  ∀ clauses symbols model result clauses1 model1,
  @DPLL o fuel clauses symbols model = Ret (result, clauses1, model1) →
  clauses1 ⊆ clauses ∧
  dom model ⊆ dom model1 ∧
  dom model1 ⊆ dom model ∪ (variables clauses ∪ default ∅ symbols) ∧
  (∀ verdict m, result = PyTuple verdict (Some m) → m = model1).
Proof.
  induction fuel as [|fuel IH];
    intros clauses symbols model result clauses1 model1; cbn [DPLL].
  { done. }
  case_bool_decide as Hempty.
  { intros [= <- <- <-]. split; [done|]. split; [done|].
    split; [apply union_subseteq_l|]. by intros verdict m. }
  destruct (bool_decide (model ≠ ∅) && _).
  { intros [= <- <- <-]. split; [done|]. split; [done|].
    split; [apply union_subseteq_l|]. by intros verdict m [= _ ->]. }
  destruct (match symbols with Some _ => _ | None => _ end).
  { intros [= <- <- <-]. split; [done|]. split; [done|].
    split; [apply union_subseteq_l|]. by intros verdict m [= _ ->]. }
  destruct (remove_unit_clauses_unit_or_none o clauses model)
    as [(c & u & Hc & Hu & Hunit)|[_ Hunit]]; rewrite Hunit.
  - intros Hrun. apply IH in Hrun as (Hsub & Hdom & Hnew & Hres).
    destruct Hu as (pre & post & -> & Hnone & _).
    assert (Z.abs u ∈ variables clauses) as Hvar.
    { apply elem_of_variables. exists (pre ++ u :: post), u.
      split; [done|]. split; [|done]. apply elem_of_app. right.
      apply list_elem_of_here. }
    assert (variables (clauses ∖ {[pre ++ u :: post]}) ⊆ variables clauses)
      as Hvars by (apply variables_mono, subseteq_difference_l; done).
    rewrite dom_insert_L in Hdom, Hnew.
    split; [|split; [|split]]; [| | |done].
    + etrans; [exact Hsub|]. by apply subseteq_difference_l.
    + etrans; [|exact Hdom]. apply union_subseteq_r.
    + intros k Hk. apply Hnew in Hk. set_solver.
  - destruct (pure_literal clauses symbols model)
      as [[[[clauses' symbols']|] model']| |] eqn:Hpure; [| |done|done].
    + apply pure_literal_Ret_sets in Hpure as (Hcs & Hss & Hdom & Hnew).
      case_bool_decide as Hempty'.
      { intros [= <- <- <-]. split; [done|]. split; [done|].
        split; [done|]. by intros verdict m [= _ ->]. }
      destruct (iter_symbols (symbols' ∖ dom model')) as [|s rest] eqn:Hs.
      { intros [= <- <- <-]. split; [done|]. split; [done|].
        split; [done|]. by intros verdict m. }
      assert (s ∈ symbols' ∖ dom model') as Hin.
      { apply iter_symbols_elem. rewrite Hs. apply list_elem_of_here. }
      apply elem_of_difference in Hin as [Hin Hfresh].
      assert (variables clauses' ⊆ variables clauses) as Hvars
        by (by apply variables_mono).
      destruct (DPLL fuel clauses' (Some symbols') (<[s:=true]> model'))
        as [[[result2 clauses2] model2]| |] eqn:Hfirst; [|done|done].
      apply IH in Hfirst as (Hsub2 & Hdom2 & Hnew2 & _).
      rewrite dom_insert_L in Hdom2, Hnew2. cbn [default] in Hnew2.
      assert (Hbound2 : dom model2
                        ⊆ dom model ∪ (variables clauses ∪ default ∅ symbols)).
      { intros k Hk. apply Hnew2 in Hk. set_solver. }
      destruct (truthy result2).
      { intros [= <- <- <-]. split; [done|].
        split; [|split; [done|by intros verdict m [= _ ->]]].
        etrans; [exact Hdom|]. etrans; [|exact Hdom2]. apply union_subseteq_r. }
      destruct (DPLL fuel clauses2 (Some symbols') (<[s:=false]> model2))
        as [[[result3 clauses3] model3]| |] eqn:Hsecond; [|done|done].
      apply IH in Hsecond as (Hsub3 & Hdom3 & Hnew3 & Hres3).
      rewrite dom_insert_L in Hdom3, Hnew3. cbn [default] in Hnew3.
      assert (variables clauses2 ⊆ variables clauses') as Hvars2
        by (by apply variables_mono).
      intros [= <- <- <-]. split; [done|]. split; [|split; [|done]].
      * etrans; [exact Hdom|]. etrans; [|exact Hdom3].
        etrans; [|apply union_subseteq_r]. etrans; [|exact Hdom2].
        apply union_subseteq_r.
      * intros k Hk. apply Hnew3 in Hk. set_solver.
    + apply pure_literal_None in Hpure as [_ ->].
      intros [= <- <- <-]. split; [done|]. split; [done|].
      split; [apply union_subseteq_l|]. by intros verdict m [= _ ->].
Qed.

(** X5: when a call of [DPLL] returns, the clause set it was given has
    lost clauses at most, never gained one; no key of the dictionary has
    been deleted, so that what a failed branch has assigned is still there
    afterwards; every key added is a variable of the clause set or of the
    symbol domain given; and the dictionary in a returned pair is the
    dictionary as the call leaves it. *)
Theorem DPLL_shrinks_clauses_and_grows_model (o : IterOrder) fuel
    clauses symbols model result clauses1 model1 :
  @DPLL o fuel clauses symbols model = Ret (result, clauses1, model1) →
  clauses1 ⊆ clauses ∧
  dom model ⊆ dom model1 ∧
  dom model1 ⊆ dom model ∪ (variables clauses ∪ default ∅ symbols) ∧
  (∀ verdict m, result = PyTuple verdict (Some m) → m = model1).
Proof. apply DPLL_state. Qed.

(** The same on the four clauses over two variables. *)
Lemma DPLL_shrinks_clauses_and_grows_model_witness :
  ∃ result clauses1 model1,
    @DPLL elements_order 3 four_clauses None ∅
      = Ret (result, clauses1, model1) ∧
    clauses1 ⊆ four_clauses ∧
    dom model1 ⊆ dom (∅ : gmap Z bool) ∪ (variables four_clauses ∪ ∅).
Proof.
  destruct (@DPLL elements_order 3 four_clauses None ∅)
    as [[[result clauses1] model1]| |] eqn:Hrun;
    try (vm_compute in Hrun; discriminate Hrun).
  exists result, clauses1, model1. split; [reflexivity|].
  destruct (DPLL_shrinks_clauses_and_grows_model elements_order 3
              four_clauses None ∅ result clauses1 model1 Hrun)
    as (Hsub & _ & Hnew & _).
  split; [exact Hsub|exact Hnew].
Defined.

(** ** [DPLL]: termination *)

Lemma pending_unit clauses symbols model c k v :
  c ∈ clauses →
  (pending (clauses ∖ {[c]}) symbols (<[k := v]> model)
   < pending clauses symbols model)%nat.
Proof.
  intros Hc. unfold pending.
  assert (size (clauses ∖ {[c]}) < size clauses)%nat as Hsize.
  { apply subset_size. apply subset_difference_elem_of. done. }
  assert (size ((variables (clauses ∖ {[c]}) ∪ default ∅ symbols)
                ∖ dom (<[k := v]> model))
          ≤ size ((variables clauses ∪ default ∅ symbols) ∖ dom model))%nat
    as Hvars.
  { apply subseteq_size. rewrite dom_insert_L.
    pose proof (variables_mono (clauses ∖ {[c]}) clauses) as Hmono.
    intros x Hx. apply elem_of_difference in Hx as [Hx Hnot].
    apply elem_of_difference. split.
    - apply elem_of_union in Hx as [Hx|Hx]; apply elem_of_union; [left|by right].
      apply Hmono; [|done]. by apply subseteq_difference_l.
    - intros Hdom. apply Hnot. apply elem_of_union. by right. }
  lia.
Qed.

Lemma pending_branch clauses symbols model clauses1 ss model1 s :
  clauses1 ⊆ clauses →
  ss ⊆ variables clauses ∪ default ∅ symbols →
  dom model ⊆ dom model1 →
  s ∈ ss → s ∉ dom model → s ∈ dom model1 →
  (pending clauses1 (Some ss) model1 < pending clauses symbols model)%nat.
Proof.
  intros Hsub Hss Hdom Hs Hfresh Hset. unfold pending.
  change (default ∅ (Some ss)) with ss.
  assert (size clauses1 ≤ size clauses)%nat as Hsize
    by (by apply subseteq_size).
  assert (size ((variables clauses1 ∪ ss) ∖ dom model1)
          < size ((variables clauses ∪ default ∅ symbols) ∖ dom model))%nat
    as Hvars.
  { apply subset_size. split.
    - intros x Hx. apply elem_of_difference in Hx as [Hx Hnot].
      apply elem_of_difference. split.
      + apply elem_of_union in Hx as [Hx|Hx]; [|by apply Hss].
        apply elem_of_union. left. by apply (variables_mono clauses1 clauses).
      + intros Hin. by apply Hnot, Hdom.
    - intros Hback.
      assert (s ∈ (variables clauses1 ∪ ss) ∖ dom model1) as Hin.
      { apply Hback. apply elem_of_difference. split; [by apply Hss|done]. }
      apply elem_of_difference in Hin as [_ Hin]. done. }
  lia.
Qed.

Lemma DPLL_enough_fuel (o : IterOrder) fuel : ∀ clauses symbols model,
  (pending clauses symbols model < fuel)%nat →
  @DPLL o fuel clauses symbols model ≠ OutOfFuel.
Proof.
  induction fuel as [|fuel IH]; intros clauses symbols model Hfuel; [lia|].
  cbn [DPLL].
  case_bool_decide as Hempty; [done|].
  destruct (bool_decide (model ≠ ∅) && _); [done|].
  destruct (match symbols with Some _ => _ | None => _ end); [done|].
  destruct (remove_unit_clauses_unit_or_none o clauses model)
    as [(c & u & Hc & Hu & Hunit)|[_ Hunit]]; rewrite Hunit.
  - apply IH.
    pose proof (pending_unit clauses symbols model c (Z.abs u) (0 <? u) Hc).
    lia.
  - destruct (pure_literal clauses symbols model)
      as [[[[clauses' symbols']|] model']| |] eqn:Hpure; [|done|done|].
    + apply pure_literal_Ret_sets in Hpure as (Hcs & Hss & Hdom & Hnew).
      case_bool_decide as Hempty'; [done|].
      destruct (iter_symbols (symbols' ∖ dom model')) as [|s rest] eqn:Hs;
        [done|].
      assert (s ∈ symbols' ∖ dom model') as Hin.
      { apply iter_symbols_elem. rewrite Hs. apply list_elem_of_here. }
      apply elem_of_difference in Hin as [Hin Hfresh].
      assert (s ∉ dom model) as Hfresh' by (intros Hk; by apply Hfresh, Hdom).
      destruct (DPLL fuel clauses' (Some symbols') (<[s:=true]> model'))
        as [[[result2 clauses2] model2]| |] eqn:Hfirst; [|done|].
      * destruct (truthy result2); [done|].
        apply DPLL_state in Hfirst
          as (Hsub2 & Hdom2 & _ & _).
        rewrite dom_insert_L in Hdom2.
        destruct (DPLL fuel clauses2 (Some symbols') (<[s:=false]> model2))
          as [[[result3 clauses3] model3]| |] eqn:Hsecond; [done|done|].
        exfalso. revert Hsecond. apply IH.
        assert (pending clauses2 (Some symbols') (<[s:=false]> model2)
                < pending clauses symbols model)%nat; [|lia].
        apply (pending_branch _ _ _ _ _ _ s); try done.
        -- by etrans.
        -- rewrite dom_insert_L. etrans; [exact Hdom|].
           etrans; [|apply union_subseteq_r]. etrans; [|exact Hdom2].
           apply union_subseteq_r.
        -- rewrite dom_insert_L. apply elem_of_union. left.
           by apply elem_of_singleton.
      * exfalso. revert Hfirst. apply IH.
        assert (pending clauses' (Some symbols') (<[s:=true]> model')
                < pending clauses symbols model)%nat; [|lia].
        apply (pending_branch _ _ _ _ _ _ s); try done.
        -- rewrite dom_insert_L. etrans; [exact Hdom|]. apply union_subseteq_r.
        -- rewrite dom_insert_L. apply elem_of_union. left.
           by apply elem_of_singleton.
    + by apply pure_literal_fuel in Hpure.
Qed.

Lemma DPLL_raises_only_KeyError (o : IterOrder) fuel :
  ∀ clauses symbols model e,
  @DPLL o fuel clauses symbols model = Raise e → e = KeyError.
Proof.
  induction fuel as [|fuel IH]; intros clauses symbols model e; cbn [DPLL];
    [done|].
  case_bool_decide; [done|].
  destruct (bool_decide (model ≠ ∅) && _); [done|].
  destruct (match symbols with Some _ => _ | None => _ end); [done|].
  destruct (remove_unit_clauses clauses model) as [[[] clauses1] model1].
  { apply IH. }
  destruct (pure_literal clauses symbols model)
    as [[[[clauses' symbols']|] model']|e'|] eqn:Hpure; [|done| |done].
  - case_bool_decide; [done|].
    destruct (iter_symbols (symbols' ∖ dom model')) as [|s rest]; [done|].
    destruct (DPLL fuel clauses' (Some symbols') (<[s:=true]> model'))
      as [[[result2 clauses2] model2]|e2|] eqn:Hfirst; [| |done].
    + destruct (truthy result2); [done|].
      destruct (DPLL fuel clauses2 (Some symbols') (<[s:=false]> model2))
        as [[[result3 clauses3] model3]|e3|] eqn:Hsecond; [done| |done].
      intros [= <-]. by eapply IH.
    + intros [= <-]. by eapply IH.
  - intros [= <-]. by eapply pure_literal_only_KeyError.
Qed.

Lemma DPLL_returns_or_KeyError (o : IterOrder) clauses symbols model (extra : nat) :
  (∃ result clauses1 model1,
     @DPLL o (S (pending clauses symbols model) + extra) clauses symbols model
       = Ret (result, clauses1, model1)) ∨
  @DPLL o (S (pending clauses symbols model) + extra) clauses symbols model
    = Raise KeyError.
Proof.
  pose proof (DPLL_enough_fuel o (S (pending clauses symbols model) + extra)
                clauses symbols model) as Hfuel.
  destruct (DPLL _ clauses symbols model) as [[[result clauses1] model1]|e|]
    eqn:Hrun.
  - left. by exists result, clauses1, model1.
  - right. f_equal. by eapply DPLL_raises_only_KeyError.
  - exfalso. apply Hfuel; [lia|done].
Qed.

(** X6: [DPLL] terminates on every clause set, symbol domain and
    dictionary, whatever the iteration order: a number of nested calls
    beyond the number of clauses plus the number of variables without a
    value is always enough, and the call then either returns or raises
    [KeyError], nothing else.  (The limit that the interpreter puts on the
    depth of the recursion is no part of the embedding.) *)
Theorem DPLL_terminates (o : IterOrder) clauses symbols model (extra : nat) :
  (∃ result clauses1 model1,
     @DPLL o (S (pending clauses symbols model) + extra) clauses symbols model
       = Ret (result, clauses1, model1)) ∨
  @DPLL o (S (pending clauses symbols model) + extra) clauses symbols model
    = Raise KeyError.
Proof. apply DPLL_returns_or_KeyError. Qed.

(** X7: the clause that [remove_unit_clauses] removes has a true literal
    in the dictionary as the function leaves it, and no entry that was
    there before has changed. *)
Theorem remove_unit_clauses_satisfies_removed (o : IterOrder) clauses model
    clauses' model' :
  @remove_unit_clauses o clauses model = (true, clauses', model') →
  ∃ c, c ∈ clauses ∧ clauses' = clauses ∖ {[c]} ∧
       clause_true model' c = true ∧ model ⊆ model'.
Proof.
  intros Hrun.
  destruct (remove_unit_clauses_unit_or_none o clauses model)
    as [(c & u & Hc & Hu & Hunit)|[_ Hunit]]; rewrite Hunit in Hrun;
    [|discriminate Hrun].
  injection Hrun as <- <-. exists c. split; [done|]. split; [done|].
  destruct Hu as (pre & post & -> & Hnone & _). split.
  - unfold clause_true. apply existsb_exists. exists u. split.
    + apply in_or_app. right. by left.
    + unfold lit_true. apply bool_decide_eq_true. apply lookup_insert_eq.
  - by apply insert_subseteq.
Qed.

(** The same on the clauses [{1, 2}] and [{-1, -2}] with variable 1 set. *)
Lemma remove_unit_clauses_satisfies_removed_witness :
  ∃ clauses' model' c,
    @remove_unit_clauses elements_order {[ [1; 2]; [-1; -2] ]} {[1 := true]}
      = (true, clauses', model') ∧
    c ∈ ({[ [1; 2]; [-1; -2] ]} : gset (list Z)) ∧
    clause_true model' c = true.
Proof.
  destruct (@remove_unit_clauses elements_order {[ [1; 2]; [-1; -2] ]}
              {[1 := true]}) as [[[] clauses'] model'] eqn:Hrun;
    [|vm_compute in Hrun; discriminate Hrun].
  destruct (remove_unit_clauses_satisfies_removed elements_order _ _ _ _ Hrun)
    as (c & Hc & _ & Htrue & _).
  exists clauses', model', c. split; [reflexivity|]. split; [exact Hc|exact Htrue].
Defined.

(** ** The truth check of [DPLL] *)

(** X8: when the keys of the dictionary are not negative and no clause
    holds the literal 0, the check [all(any(...))] of [DPLL] succeeds
    exactly when every clause has a literal that is true in the dictionary,
    whatever the iteration order. *)
Theorem all_clauses_hold_is_truth (o : IterOrder) clauses model :
  (∀ k, k ∈ dom model → 0 ≤ k) →
  (∀ c, c ∈ clauses → 0 ∉ c) →
  @all_clauses_hold o clauses model = true ↔
  ∀ c, c ∈ clauses → clause_true model c = true.
Proof.
  intros Hkeys Hzero.
  assert (Hneg : ∀ k, k < 0 → model !! k = None).
  { intros k Hk. apply not_elem_of_dom. intros Hin. apply Hkeys in Hin. lia. }
  assert (Hlit : ∀ l, l ≠ 0 → lit_holds model l = lit_true model l).
  { intros l Hl. unfold lit_holds, lit_true.
    destruct (Z.ltb_spec 0 l) as [Hpos|Hnonpos].
    - rewrite (Hneg (- l)) by lia. rewrite orb_false_r.
      rewrite Z.abs_eq by lia.
      destruct (model !! l) as [[]|]; symmetry;
        [by apply bool_decide_eq_true|by apply bool_decide_eq_false
        |by apply bool_decide_eq_false].
    - rewrite (Hneg l) by lia. rewrite orb_false_l.
      rewrite Z.abs_neq by lia.
      destruct (model !! - l) as [[]|]; symmetry;
        [by apply bool_decide_eq_false|by apply bool_decide_eq_true
        |by apply bool_decide_eq_false]. }
  assert (Hclause : ∀ c, c ∈ clauses →
                    existsb (lit_holds model) c = clause_true model c).
  { intros c Hc. unfold clause_true. specialize (Hzero c Hc). clear Hc.
    induction c as [|l c IH]; [done|]. cbn [existsb].
    rewrite Hlit, IH; [done| |].
    - intros Hin. apply Hzero. by apply list_elem_of_further.
    - intros ->. apply Hzero. apply list_elem_of_here. }
  unfold all_clauses_hold. rewrite forallb_forall. split.
  - intros Hall c Hc. rewrite <- Hclause by done.
    apply Hall, list_elem_of_In. by apply iter_clauses_elem.
  - intros Hall c Hc. apply list_elem_of_In, iter_clauses_elem in Hc.
    rewrite Hclause by done. by apply Hall.
Qed.

(** The same on the four clauses with both variables set to true: the
    check fails, and the clause [{-1, -2}] has no true literal. *)
Lemma all_clauses_hold_is_truth_witness :
  @all_clauses_hold elements_order four_clauses {[1 := true; 2 := true]}
    = false ∧
  ¬ (∀ c, c ∈ four_clauses → clause_true {[1 := true; 2 := true]} c = true).
Proof.
  assert (Hcheck : @all_clauses_hold elements_order four_clauses
                     {[1 := true; 2 := true]} = false)
    by (vm_compute; reflexivity).
  split; [exact Hcheck|]. intros Hall.
  apply (all_clauses_hold_is_truth elements_order) in Hall.
  - rewrite Hcheck in Hall. discriminate Hall.
  - intros k Hk.
    assert (dom ({[1 := true; 2 := true]} : gmap Z bool) = {[1; 2]}) as Hdom
      by (vm_compute; reflexivity).
    rewrite Hdom, elem_of_union, !elem_of_singleton in Hk.
    destruct Hk as [->| ->]; lia.
  - intros c Hc Hin.
    assert (forallb (forallb (λ l, negb (l =? 0))) (elements four_clauses)
            = true) as Hnz by (vm_compute; reflexivity).
    rewrite forallb_forall in Hnz.
    apply elem_of_elements, list_elem_of_In, Hnz in Hc.
    rewrite forallb_forall in Hc. apply list_elem_of_In, Hc in Hin.
    discriminate Hin.
Defined.

(** ** The loader *)

Lemma collect_prefix g : ∀ nb_clauses cnf0 cnf,
  collect g nb_clauses cnf0 = Ret cnf →
  (∃ k, cnf = cnf0 ∪ list_to_set (take k (yields g))) ∧
  Z.of_nat (size cnf) ≤ Z.max (Z.of_nat (size cnf0) + 1) nb_clauses.
Proof.
  induction g as [| |clause g IH]; intros nb_clauses cnf0 cnf; cbn [collect].
  - intros [= <-]. split; [|lia]. exists 0%nat. cbn.
    by rewrite (right_id_L ∅ (∪)).
  - done.
  - assert (size (cnf0 ∪ {[clause]}) ≤ size cnf0 + 1)%nat as Hsize.
    { rewrite size_union_alt.
      assert (size ({[clause]} ∖ cnf0) ≤ size ({[clause]} : gset (list Z)))%nat
        as Hone by (apply subseteq_size, subseteq_difference_l; done).
      rewrite size_singleton in Hone. lia. }
    destruct (Z.leb_spec nb_clauses (Z.of_nat (size (cnf0 ∪ {[clause]}))))
      as [Hstop|Hgo].
    + intros [= <-]. split; [|lia]. exists 1%nat. cbn [yields].
      rewrite firstn_cons, firstn_O.
      by rewrite list_to_set_cons, list_to_set_nil, (right_id_L ∅ (∪)).
    + intros Hrun. apply IH in Hrun as [[k ->] Hbound]. split; [|lia].
      exists (S k). cbn [yields]. rewrite firstn_cons.
      by rewrite list_to_set_cons, (assoc_L (∪)).
Qed.

(** X9: the formula that [parse_file] returns is the set of the first
    clauses of the file, up to some point, and it has at most
    [nb_clauses] clauses, or one when [nb_clauses] is less than one. *)
Theorem parse_file_loads_a_prefix file l :
  parse_file file = Ret l →
  (∃ k, loaded_cnf l
        = list_to_set
            (take k (yields (read_clause (tail file) (loaded_nb_lit l) [])))) ∧
  Z.of_nat (size (loaded_cnf l)) ≤ Z.max 1 (loaded_nb_clauses l).
Proof.
  unfold parse_file.
  destruct (read_header file) as [[nb_clauses nb_lit]| |]; [|done|done].
  destruct (collect _ nb_clauses ∅) as [cnf| |] eqn:Hcollect; [|done|done].
  intros [= <-]. cbn [loaded_cnf loaded_nb_lit loaded_nb_clauses].
  apply collect_prefix in Hcollect as [[k ->] Hbound].
  rewrite size_empty in Hbound. split; [|exact Hbound].
  exists k. by rewrite (left_id_L ∅ (∪)).
Qed.

(** The same on the file that holds the clause [1 2 0] twice. *)
Lemma parse_file_loads_a_prefix_witness :
  (∃ k, ({[ [1; 2] ]} : gset (list Z))
        = list_to_set (take k (yields (read_clause (tail repeated_file) 2 [])))) ∧
  Z.of_nat (size ({[ [1; 2] ]} : gset (list Z))) ≤ Z.max 1 2.
Proof.
  pose proof (parse_file_loads_a_prefix repeated_file
                (Loaded {[ [1; 2] ]} 2 2 [Reading 2 2; Warning 1 2]))
    as Hprefix.
  cbn [loaded_cnf loaded_nb_lit loaded_nb_clauses] in Hprefix.
  apply Hprefix. vm_compute; reflexivity.
Defined.

Lemma collect_read_clause_app more nb_lit nb_clauses file : ∀ buffer cnf0 cnf,
  collect (read_clause file nb_lit buffer) nb_clauses cnf0 = Ret cnf →
  nb_clauses ≤ Z.of_nat (size cnf) →
  Z.of_nat (size cnf0) < nb_clauses →
  collect (read_clause (file ++ more) nb_lit buffer) nb_clauses cnf0 = Ret cnf.
Proof.
  induction file as [|line file IH]; intros buffer cnf0 cnf.
  - cbn [read_clause collect]. intros [= <-]. lia.
  - rewrite <- app_comm_cons. cbn [read_clause].
    destruct (strip (list_ascii_of_string line)) as [|a stripped];
      [apply IH|].
    destruct (endswith_zero (a :: stripped)); [|apply IH].
    destruct (ints _) as [current_clause|]; [|done].
    destruct (existsb _ current_clause); [done|].
    cbn [collect].
    destruct (Z.leb_spec nb_clauses
                (Z.of_nat (size (cnf0 ∪ {[current_clause]})))) as [Hstop|Hgo].
    + done.
    + intros Hrun Hfull _. by apply IH.
Qed.

(** X10: once [parse_file] has collected [nb_clauses] distinct clauses, it
    reads no further: whatever follows in the file, well formed or not, does
    not change what it returns. *)
Theorem parse_file_ignores_what_follows file l more :
  parse_file file = Ret l →
  1 ≤ loaded_nb_clauses l ≤ Z.of_nat (size (loaded_cnf l)) →
  parse_file (file ++ more) = Ret l.
Proof.
  unfold parse_file.
  destruct file as [|header file].
  { by cbn. }
  rewrite <- app_comm_cons.
  change (read_header (header :: file ++ more))
    with (read_header (header :: file)).
  destruct (read_header (header :: file)) as [[nb_clauses nb_lit]| |];
    [|done|done].
  cbn [tail].
  destruct (collect (read_clause file nb_lit []) nb_clauses ∅)
    as [cnf| |] eqn:Hcollect; [|done|done].
  intros [= <-]. cbn [loaded_cnf loaded_nb_clauses]. intros [Hone Hfull].
  rewrite (collect_read_clause_app more nb_lit nb_clauses file [] ∅ cnf);
    [done|done|done|].
  rewrite size_empty. lia.
Qed.

(** The same on a file with one declared clause, followed by a line that
    is no clause at all. *)
Lemma parse_file_ignores_what_follows_witness :
  parse_file (one_clause_file ++ no_clause_lines)
    = Ret (Loaded {[ [1; -2] ]} 1 2 [Reading 1 2]).
Proof.
  apply (parse_file_ignores_what_follows one_clause_file).
  - vm_compute; reflexivity.
  - cbn [loaded_nb_clauses loaded_cnf]. rewrite size_singleton. lia.
Defined.

Lemma read_clause_blank pre blank post nb_lit : ∀ buffer,
  strip (list_ascii_of_string blank) = [] →
  read_clause (pre ++ blank :: post) nb_lit buffer
    = read_clause (pre ++ post) nb_lit buffer.
Proof.
  intros buffer Hblank. revert buffer.
  induction pre as [|line pre IH]; intros buffer.
  - cbn [app read_clause]. by rewrite Hblank.
  - rewrite <- !app_comm_cons. cbn [read_clause].
    destruct (strip (list_ascii_of_string line)) as [|a stripped]; [apply IH|].
    destruct (endswith_zero (a :: stripped)); [|apply IH].
    destruct (ints _) as [current_clause|]; [|done].
    destruct (existsb _ current_clause); [done|]. by rewrite IH.
Qed.

(** X11: a line made of white space only, anywhere after the header, is
    skipped: the file loads as it does without that line, also when the line
    stands in the middle of a clause. *)
Theorem parse_file_skips_blank_lines header pre blank post :
  strip (list_ascii_of_string blank) = [] →
  parse_file (header :: pre ++ blank :: post)
    = parse_file (header :: pre ++ post).
Proof.
  intros Hblank. unfold parse_file.
  change (read_header (header :: pre ++ blank :: post))
    with (read_header (header :: pre ++ post)).
  destruct (read_header (header :: pre ++ post)) as [[nb_clauses nb_lit]| |];
    [|done|done].
  cbn [tail]. by rewrite read_clause_blank.
Qed.

(** The same with a line of blanks and a tab inside a clause. *)
Lemma parse_file_skips_blank_lines_witness :
  parse_file ("1 3"%string :: split_clause_start ++ blank_line :: split_clause_end)
    = parse_file ("1 3"%string :: split_clause_start ++ split_clause_end).
Proof.
  apply (parse_file_skips_blank_lines "1 3"%string split_clause_start
           blank_line split_clause_end).
  vm_compute; reflexivity.
Defined.

Lemma space_is_not_zero w : is_space w = true → is_zero_char w = false.
Proof.
  unfold is_space, is_zero_char.
  destruct (N.eqb_spec (N_of_ascii w) 48) as [->|Hne]; [|done].
  vm_compute. discriminate.
Qed.

Lemma endswith_zero_token s w :
  endswith_zero (s ++ [w; "0"%char]) = true.
Proof. unfold endswith_zero. by rewrite rev_app_distr. Qed.

Lemma rstrip_zeros_token s w :
  is_space w = true → rstrip_zeros (s ++ [w; "0"%char]) = s ++ [w].
Proof.
  intros Hw. unfold rstrip_zeros. rewrite rev_app_distr. cbn [rev app drop_while].
  change (is_zero_char "0") with true. cbv beta iota.
  rewrite (space_is_not_zero w Hw). cbn [rev]. by rewrite rev_involutive.
Qed.

Lemma split_loop_app a w b : ∀ tok,
  is_space w = true →
  split_loop (a ++ w :: b) tok = split_loop a tok ++ split_loop b [].
Proof.
  intros tok Hw. revert tok.
  induction a as [|c a IH]; intros tok; cbn [app split_loop].
  - rewrite Hw. by destruct tok.
  - destruct (is_space c); [|apply IH].
    destruct tok; [apply IH|]. by rewrite IH.
Qed.

Lemma split_space_end s w : is_space w = true → split (s ++ [w]) = split s.
Proof.
  intros Hw. unfold split. rewrite split_loop_app by done.
  cbn [split_loop]. by rewrite app_nil_r.
Qed.

Lemma read_clause_nonblank line file' nb_lit buffer :
  strip (list_ascii_of_string line) ≠ [] →
  read_clause (line :: file') nb_lit buffer =
    if endswith_zero (strip (list_ascii_of_string line)) then
      match ints (split (rstrip_zeros
                    (buffer ++ strip (list_ascii_of_string line)))) with
      | None => GRaise ValueError_int
      | Some current_clause =>
          if existsb (λ literal, nb_lit <? Z.abs literal) current_clause
          then GRaise ValueError_invalid_clause
          else GYield current_clause (read_clause file' nb_lit [])
      end
    else read_clause file' nb_lit
           ((buffer ++ strip (list_ascii_of_string line)) ++ [" "%char]).
Proof.
  intros Hne. cbn [read_clause].
  by destruct (strip (list_ascii_of_string line)).
Qed.

Lemma read_clause_separate_zero line file' nb_lit buffer pre w :
  strip (list_ascii_of_string line) = pre ++ [w; "0"%char] →
  is_space w = true →
  read_clause (line :: file') nb_lit buffer =
    match ints (split (buffer ++ pre)) with
    | None => GRaise ValueError_int
    | Some current_clause =>
        if existsb (λ literal, nb_lit <? Z.abs literal) current_clause
        then GRaise ValueError_invalid_clause
        else GYield current_clause (read_clause file' nb_lit [])
    end.
Proof.
  intros Hstrip Hw. rewrite read_clause_nonblank.
  - rewrite Hstrip, endswith_zero_token.
    rewrite (app_assoc buffer pre), rstrip_zeros_token by done.
    by rewrite split_space_end.
  - rewrite Hstrip. by destruct pre.
Qed.

(** X12: when the trimmed line ends with the character 0 preceded by white
    space, [read_clause] closes the clause with the tokens gathered before
    that 0, from the lines already buffered and from this one: the 0 is
    dropped and no other token is shortened. *)
Theorem read_clause_removes_separate_zero line file' nb_lit buffer pre w :
  strip (list_ascii_of_string line) = pre ++ [w; "0"%char] →
  is_space w = true →
  read_clause (line :: file') nb_lit buffer =
    match ints (split (buffer ++ pre)) with
    | None => GRaise ValueError_int
    | Some current_clause =>
        if existsb (λ literal, nb_lit <? Z.abs literal) current_clause
        then GRaise ValueError_invalid_clause
        else GYield current_clause (read_clause file' nb_lit [])
    end.
Proof. apply read_clause_separate_zero. Qed.

(** The same on the line [1 -2 3 0] under the bound 3. *)
Lemma read_clause_removes_separate_zero_witness :
  read_clause [one_line_clause] 3 [] = GYield [1; -2; 3] GStop.
Proof.
  rewrite (read_clause_removes_separate_zero one_line_clause [] 3 []
             one_line_body " "%char).
  - vm_compute; reflexivity.
  - vm_compute; reflexivity.
  - vm_compute; reflexivity.
Defined.

(** X13: a clause may run over two lines.  When the first line, trimmed,
    is not empty and does not end with the character 0, and the second ends
    with a 0 preceded by white space, the clause read from an empty buffer
    is made of the tokens of the first line followed by the tokens of the
    second before its 0: the last token of a line and the first token of
    the next one are never fused. *)
Theorem read_clause_joins_two_lines line1 line2 file' nb_lit pre w :
  strip (list_ascii_of_string line1) ≠ [] →
  endswith_zero (strip (list_ascii_of_string line1)) = false →
  strip (list_ascii_of_string line2) = pre ++ [w; "0"%char] →
  is_space w = true →
  read_clause (line1 :: line2 :: file') nb_lit [] =
    match ints (split (strip (list_ascii_of_string line1)) ++ split pre) with
    | None => GRaise ValueError_int
    | Some current_clause =>
        if existsb (λ literal, nb_lit <? Z.abs literal) current_clause
        then GRaise ValueError_invalid_clause
        else GYield current_clause (read_clause file' nb_lit [])
    end.
Proof.
  intros Hne Hend Hstrip Hw.
  rewrite read_clause_nonblank by done. rewrite Hend.
  rewrite (read_clause_separate_zero line2 file' nb_lit _ pre w)
    by done.
  cbn [app]. rewrite <- app_assoc. cbn [app].
  unfold split at 1. rewrite split_loop_app by reflexivity. done.
Qed.

(** The same on the lines [1 -21] and [3 0] under the bound 21. *)
Lemma read_clause_joins_two_lines_witness :
  read_clause [first_half; second_half] 21 [] = GYield [1; -21; 3] GStop.
Proof.
  rewrite (read_clause_joins_two_lines first_half second_half [] 21
             second_half_body " "%char).
  - vm_compute; reflexivity.
  - vm_compute. discriminate.
  - vm_compute; reflexivity.
  - vm_compute; reflexivity.
  - vm_compute; reflexivity.
Defined.

(** ** The script as a whole *)

(** X14: the script terminates on every file, whatever the iteration
    order: with enough nested calls allowed, it prints its report, or stops
    on one of the [ValueError]s of the loader or on the [KeyError] of the
    search. *)
Theorem main_terminates (o : IterOrder) file :
  ∃ fuel, ∀ extra,
    (∃ printed_lines verdict,
       @main o (fuel + extra) file = Ret (printed_lines, verdict)) ∨
    (∃ e, @main o (fuel + extra) file = Raise e ∧
          (e = KeyError ∨ parse_file file = Raise e)).
Proof.
  unfold main, DPLL_default.
  destruct (parse_file file) as [l|e|] eqn:Hload.
  - exists (S (pending (loaded_cnf l) None ∅)). intros extra.
    cbn [fresh_process DPLL_default_model].
    destruct (DPLL_returns_or_KeyError o (loaded_cnf l) None ∅ extra)
      as [(result & clauses1 & model1 & ->)| ->].
    + left. by eexists _, _.
    + right. exists KeyError. split; [done|by left].
  - exists 0%nat. intros extra. right. exists e. split; [done|by right].
  - exfalso. unfold parse_file in Hload.
    destruct (read_header file) as [[nb_clauses nb_lit]| |] eqn:Hheader.
    + destruct (collect _ nb_clauses ∅) as [cnf| |] eqn:Hcollect;
        [done|done|].
      clear Hload Hheader. revert Hcollect.
      generalize (∅ : gset (list Z)).
      induction (read_clause (tail file) nb_lit []) as [| |c g IH];
        intros cnf0; cbn [collect]; [done|done|].
      destruct (nb_clauses <=? _); [done|apply IH].
    + done.
    + unfold read_header in Hheader.
      destruct (split _) as [|t1 [|t2 [|t3 rest]]]; [done| | |].
      * by destruct (py_int t1).
      * by destruct (py_int t1), (py_int t2).
      * by destruct (py_int t1), (py_int t2), (py_int t3).
Qed.

(** ** [pure_literal]: what it returns, in the words of its description *)

(** X15: [pure_literal] returns the pair of [None]s on an empty clause set.
    On any other clause set, provided every variable of an established
    symbol domain occurs in the clause set, it returns, and among the
    candidate variables (the symbol domain when it is established, the
    variables of the clause set otherwise) every one whose occurrences have
    a single sign is set to that sign in the dictionary and is absent from
    the returned domain; the returned clauses are exactly those without such
    a variable; and a domain that was not established is returned as the
    variables of the clause set that occur with both signs. *)
Theorem pure_literal_contract (o : IterOrder) cnf symbols model :
  (cnf = ∅ → @pure_literal o cnf symbols model = Ret (None, model)) ∧
  (cnf ≠ ∅ →
   (established symbols = true → ∀ v, v ∈ default ∅ symbols → occurs v cnf) →
   ∃ cs ss model',
     @pure_literal o cnf symbols model = Ret (Some (cs, ss), model') ∧
     (∀ v b, candidate symbols cnf v → single_signed v cnf →
             occurs_as v b cnf → model' !! v = Some b ∧ v ∉ ss) ∧
     (∀ c, c ∈ cs ↔
           c ∈ cnf ∧
           ∀ l, l ∈ c →
                ¬ (candidate symbols cnf (Z.abs l) ∧ single_signed (Z.abs l) cnf)) ∧
     (established symbols = false →
      ∀ v, v ∈ ss ↔ occurs v cnf ∧ ¬ single_signed v cnf)).
Proof.
  split.
  - intros ->. unfold pure_literal. by rewrite bool_decide_eq_true_2.
  - intros Hne Hdom.
    assert (Hocc : ∀ v, pure_var symbols cnf v → occurs v cnf).
    { intros v [Hcand _]. unfold candidate in Hcand.
      destruct (established symbols); [by apply Hdom|done]. }
    destruct (pure_literal_total o cnf symbols model Hne Hocc)
      as (r & model' & Hrun).
    destruct (pure_literal_Ret o cnf symbols model r model' Hne Hrun)
      as (cs & ss & -> & Hcs & Hss & _ & Hset & _).
    exists cs, ss, model'. split; [done|]. split; [|split].
    + intros v b Hcand Hsingle Hb. split; [by apply Hset|].
      rewrite Hss. intros [_ Hnot]. by apply Hnot.
    + done.
    + intros Hest v. rewrite Hss. unfold pure_var, candidate. rewrite Hest.
      split; [|tauto]. intros [Hv Hnot]. split; [done|]. tauto.
Qed.

(** The same at work on four clauses, with no symbol domain given:
    variables 1 and 3 are pure and set to true, and the returned domain is
    made of variables 2 and 4. *)
Lemma pure_literal_contract_witness :
  ∃ cs ss model',
    @pure_literal elements_order three_clauses None ∅
      = Ret (Some (cs, ss), model') ∧
    model' !! 1 = Some true ∧ model' !! 3 = Some true ∧
    1 ∉ ss ∧ 3 ∉ ss ∧ 2 ∈ ss ∧ 4 ∈ ss.
Proof.
  destruct (proj2 (pure_literal_contract elements_order three_clauses None ∅))
    as (cs & ss & model' & Hrun & Hset & Hcs & Hss).
  { by vm_compute. }
  { intros Hest. by vm_compute in Hest. }
  exists cs, ss, model'. split; [done|].
  destruct (Hset 1 true) as [H1 H1']; [by apply occurs_spec|signs|signs|].
  destruct (Hset 3 true) as [H3 H3']; [by apply occurs_spec|signs|signs|].
  specialize (Hss eq_refl).
  split; [exact H1|]. split; [exact H3|].
  split; [exact H1'|]. split; [exact H3'|].
  split; apply Hss; (split; [signs|signs]).
Defined.

(** X16: when every variable of the clause set belongs to an established
    symbol domain (as [DPLL] keeps it) and [pure_literal] returns on a
    clause set that is not empty, the contract of its description holds of
    all variables: every variable whose occurrences have a single sign is
    set to that sign and is absent from the returned domain, the returned
    clauses are exactly those without such a variable, and the returned
    domain is made of the other variables: of the given domain when it is
    established, of the clause set otherwise. *)
Theorem pure_literal_contract_on_return (o : IterOrder) cnf symbols model
    r model' :
  cnf ≠ ∅ →
  (established symbols = true → variables cnf ⊆ default ∅ symbols) →
  @pure_literal o cnf symbols model = Ret (r, model') →
  ∃ cs ss, r = Some (cs, ss) ∧
    (∀ v b, single_signed v cnf → occurs_as v b cnf →
            model' !! v = Some b ∧ v ∉ ss) ∧
    (∀ c, c ∈ cs ↔ c ∈ cnf ∧ ∀ l, l ∈ c → ¬ single_signed (Z.abs l) cnf) ∧
    (established symbols = true →
     ∀ v, v ∈ ss ↔ v ∈ default ∅ symbols ∧ ¬ single_signed v cnf) ∧
    (established symbols = false →
     ∀ v, v ∈ ss ↔ occurs v cnf ∧ ¬ single_signed v cnf) ∧
    @pure_literal_described o cnf symbols model.
Proof.
  intros Hne Hcover Hrun.
  assert (Hcand : ∀ v, occurs v cnf → candidate symbols cnf v).
  { intros v Hv. unfold candidate.
    destruct (established symbols) eqn:Hest; [|done].
    by apply (Hcover eq_refl), elem_of_variables. }
  destruct (pure_literal_Ret o cnf symbols model r model' Hne Hrun)
    as (cs & ss & -> & Hcs & Hss & _ & Hset & _).
  assert (Hpure : ∀ v b, single_signed v cnf → occurs_as v b cnf →
                         model' !! v = Some b ∧ v ∉ ss).
  { intros v b Hsingle Hb.
    assert (pure_var symbols cnf v) as Hv.
    { split; [|done]. by apply Hcand, (occurs_as_occurs v b). }
    split; [by apply Hset|]. rewrite Hss. tauto. }
  assert (Hclauses : ∀ c, c ∈ cs ↔
            c ∈ cnf ∧ ∀ l, l ∈ c → ¬ single_signed (Z.abs l) cnf).
  { intros c. rewrite Hcs. split.
    - intros [Hc Hnot]. split; [done|]. intros l Hl Hsingle.
      apply (Hnot l Hl). split; [|done]. apply Hcand. by exists c, l.
    - intros [Hc Hnot]. split; [done|]. intros l Hl [_ Hsingle].
      by apply (Hnot l Hl). }
  exists cs, ss. split; [done|]. split; [done|]. split; [done|].
  split; [|split].
  - intros Hest v. rewrite Hss. unfold pure_var, candidate. rewrite Hest. tauto.
  - intros Hest v. rewrite Hss. unfold pure_var, candidate. rewrite Hest. tauto.
  - split; [by intros ->|]. intros _. exists cs, ss, model'.
    split; [done|]. split.
    + intros v b Hb Hsingle. destruct (Hpure v b Hsingle Hb) as [Hset' Hout].
      split; [done|]. split; [done|].
      intros c l Hc Hl Habs Hin. apply Hclauses in Hin as [_ Hin].
      apply (Hin l Hl). by rewrite Habs.
    + intros Hest v Hv. apply Hss in Hv as [Hv _].
      unfold candidate in Hv. by rewrite Hest in Hv.
Qed.

(** The same on four clauses with the domain of their four variables:
    variable 1 is set to true and leaves the domain, and the clause that
    holds it is not returned. *)
Lemma pure_literal_contract_on_return_witness :
  ∃ cs ss model',
    @pure_literal elements_order three_clauses (Some {[1; 2; 3; 4]}) ∅
      = Ret (Some (cs, ss), model') ∧
    model' !! 1 = Some true ∧ 1 ∉ ss ∧ [1; 2] ∉ cs.
Proof.
  destruct (@pure_literal elements_order three_clauses (Some {[1; 2; 3; 4]}) ∅)
    as [[[[cs ss]|] model']| |] eqn:Hrun; try (vm_compute in Hrun; discriminate Hrun).
  exists cs, ss, model'. split; [reflexivity|].
  destruct (pure_literal_contract_on_return elements_order three_clauses
              (Some {[1; 2; 3; 4]}) ∅ (Some (cs, ss)) model')
    as (cs' & ss' & Heq & Hset & Hcs & _).
  { by vm_compute. }
  { intros _. apply (bool_decide_unpack _). vm_compute. exact I. }
  { exact Hrun. }
  injection Heq as <- <-.
  destruct (Hset 1 true) as [H1 H1']; [signs|signs|].
  split; [exact H1|]. split; [exact H1'|].
  intros Hin. apply Hcs in Hin as [_ Hin].
  apply (Hin 1); [by left|]. signs.
Defined.
